(** * wsnet/listen.go: the listener side of the broker-mediated tunnel

    A shallow embedding of [Listen], [listener.dial], [listener.negotiate],
    [listener.handle] and [listener.Close].  Everything outside the package
    (the websocket, yamux, the WebRTC peer, the target sockets, the JSON
    encoder) is an oracle of the environment [Env]: a call is logged as an
    [event] and its result is a function of the events logged so far, so an
    environment may answer the same call differently at different times. *)

From Stdlib Require Import List String Ascii ZArith Lia Bool.
From Stdlib Require Import Strings.Byte.
Import ListNotations.
Local Open Scope string_scope.
Local Open Scope list_scope.

(** ** Go errors *)

(** The sentinel error values the listener compares against with
    [errors.Is]. *)
Inductive sentinel : Type :=
| io_EOF
| yamux_ErrKeepAliveTimeout
| context_Canceled
| context_DeadlineExceeded.

Definition sentinel_eqb (a b : sentinel) : bool :=
  match a, b with
  | io_EOF, io_EOF
  | yamux_ErrKeepAliveTimeout, yamux_ErrKeepAliveTimeout
  | context_Canceled, context_Canceled
  | context_DeadlineExceeded, context_DeadlineExceeded => true
  | _, _ => false
  end.

(** The dynamic shapes of [error] values that reach the listener.
    [Errorf_w prefix e] is [fmt.Errorf(prefix + "%w", e)];
    [net_OpError] is a pointer to [net.OpError] ([Addr] is empty when the field is nil);
    [PolicyErr] is the package's [notPermittedByPolicyErr]. *)
Inductive error : Type :=
| Sentinel (s : sentinel)
| errors_New (text : string)
| Errorf_w (prefix : string) (err : error)
| net_OpError (Op Net Addr : string) (Err : error)
| PolicyErr (text : string).

Definition sentinel_text (s : sentinel) : string :=
  match s with
  | io_EOF => "EOF"
  | yamux_ErrKeepAliveTimeout => "keepalive timeout"
  | context_Canceled => "context canceled"
  | context_DeadlineExceeded => "context deadline exceeded"
  end.

(** [err.Error()]. *)
Fixpoint Error (err : error) : string :=
  match err with
  | Sentinel s => sentinel_text s
  | errors_New text => text
  | Errorf_w prefix e => prefix ++ Error e
  | net_OpError op net addr e =>
      op ++ (if String.eqb net "" then "" else " " ++ net)
         ++ (if String.eqb addr "" then "" else " " ++ addr)
         ++ ": " ++ Error e
  | PolicyErr text => text
  end.

(** [errors.Is(err, target)] for a sentinel target: walks the [Unwrap]
    chain. *)
Fixpoint errors_Is (err : error) (target : sentinel) : bool :=
  match err with
  | Sentinel s => sentinel_eqb s target
  | Errorf_w _ e => errors_Is e target
  | net_OpError _ _ _ e => errors_Is e target
  | errors_New _ | PolicyErr _ => false
  end.

(** [errors.As(err, &policyErr)] with [policyErr] of type
    [notPermittedByPolicyErr]. *)
Fixpoint errors_As_policy (err : error) : bool :=
  match err with
  | PolicyErr _ => true
  | Errorf_w _ e => errors_As_policy e
  | net_OpError _ _ _ e => errors_As_policy e
  | Sentinel _ | errors_New _ => false
  end.

(** The type assertion of [err] to a pointer to [net.OpError]: it looks at the
    dynamic type of [err] only, not at what it wraps.  Returns [(Net, Op)]. *)
Definition as_OpError (err : error) : option (string * string) :=
  match err with
  | net_OpError op net _ _ => Some (net, op)
  | _ => None
  end.

(** [fmt.Sprintf("%+v", urls)] for a [[]string]. *)
Definition fmt_strings (l : list string) : string :=
  "[" ++ String.concat " " l ++ "]".

(** ** Data model *)

Definition bytes := list byte.
Definition PeerId := nat.
Definition WsId := nat.
Definition DcId := nat.

Record ICEServer : Type := mkICEServer {
  URLs : list string;
  Username : string;
  Credential : string
}.

Record SessionDescription : Type := mkSessionDescription {
  sd_type : string;
  sdp : string
}.

Record ICECandidateInit : Type := mkICECandidateInit {
  ici_Candidate : string
}.

(** Modelled from the spec: the declaration of [BrokerMessage] is not among
    the sources; the fields are those listen.go reads and writes, named after
    section 3 of the specification.  A nil pointer or nil slice is [None]. *)
Record BrokerMessage : Type := mkBrokerMessage {
  Offer : option SessionDescription;
  Servers : option (list ICEServer);
  TURNProxyURL : string;
  Error_ : string;
  Answer : option SessionDescription;
  Candidate : string
}.

Definition emptyMessage : BrokerMessage :=
  mkBrokerMessage None None "" "" None "".

(** [&BrokerMessage{Error: text}] *)
Definition errorMessage (text : string) : BrokerMessage :=
  mkBrokerMessage None None "" text None "".

(** [&BrokerMessage{Answer: sd}] *)
Definition answerMessage (sd : option SessionDescription) : BrokerMessage :=
  mkBrokerMessage None None "" "" sd "".

Record turnProxyDialer : Type := mkTurnProxyDialer {
  baseURL : string;
  token : string
}.

Inductive PeerConnectionState : Type :=
| PeerConnectionStateNew
| PeerConnectionStateConnecting
| PeerConnectionStateConnected
| PeerConnectionStateDisconnected
| PeerConnectionStateFailed
| PeerConnectionStateClosed.

Definition pcs_eqb (a b : PeerConnectionState) : bool :=
  match a, b with
  | PeerConnectionStateNew, PeerConnectionStateNew
  | PeerConnectionStateConnecting, PeerConnectionStateConnecting
  | PeerConnectionStateConnected, PeerConnectionStateConnected
  | PeerConnectionStateDisconnected, PeerConnectionStateDisconnected
  | PeerConnectionStateFailed, PeerConnectionStateFailed
  | PeerConnectionStateClosed, PeerConnectionStateClosed => true
  | _, _ => false
  end.

(** Codes for DialChannelResponse. *)
Definition CodeDialErr : string := "dial_error".
Definition CodePermissionErr : string := "permission_error".
Definition CodeBadAddressErr : string := "bad_address_error".

(** [time.Duration] counts nanoseconds. *)
Definition time_Second : Z := 1000000000.
Definition connectionRetryInterval : Z := time_Second.

Record DialChannelResponse : Type := mkDialChannelResponse {
  Code : string;
  Err : string;
  Net : string;
  Op : string
}.

Record listener : Type := mkListener {
  broker : string;
  turnProxyAuthToken : string;
  acceptError : option error;
  ws : option WsId;
  connClosers : list PeerId
}.

(** ** Events: every call that leaves the package *)

Inductive event : Type :=
(* the signaling stream of one negotiation *)
| EvConnWrite (d : bytes)
| EvConnClose
(* ICE probing and the peer connection *)
| EvDialICE (server : ICEServer)
| EvNewPeerConnection (servers : list ICEServer) (turnProxy : option turnProxyDialer)
| EvOnConnectionStateChange (p : PeerId)
| EvProxyICECandidates (p : PeerId)
| EvOnDataChannel (p : PeerId) (msg : BrokerMessage)
| EvSetRemoteDescription (p : PeerId) (sd : SessionDescription)
| EvCreateAnswer (p : PeerId)
| EvSetLocalDescription (p : PeerId) (sd : SessionDescription)
| EvFlushCandidates (p : PeerId)
| EvAddICECandidate (p : PeerId) (c : ICECandidateInit)
| EvPeerClose (p : PeerId)
(* one data channel *)
| EvDetach (dc : DcId)
| EvRwRead (dc : DcId) (len : nat)
| EvRwWrite (dc : DcId) (d : bytes)
| EvRwClose (dc : DcId)
| EvDcClose (dc : DcId)
| EvNetDial (network addr : string)
| EvBridge (dc : DcId)
| EvCopyBack (dc : DcId)
| EvCoClose (dc : DcId)
| EvNcClose (dc : DcId)
(* the broker websocket and the reconnect ticker *)
| EvWsDial (url : string)
| EvWsOpened (w : WsId)
| EvWsClose (w : WsId) (reason : string)
| EvYamuxServer (w : WsId)
| EvNewTicker (d : Z)
| EvTickerStop.

Definition history := list event.

(** What [websocket.Dial] returns: a connection, or an error with or without
    an HTTP response. *)
Inductive wsDialResult : Type :=
| WsDialOk
| WsDialErr (resp : option nat) (err : error).

(** ** The environment *)

Record Env : Type := mkEnv {
  (* names the package takes from files that are not among the sources *)
  turnProxyMagicUsername : string;
  controlChannel : string;
  getAddress : BrokerMessage -> string -> error + (string * string);
  coder_NewHTTPError : nat -> error;
  (* encoding/json, net/url *)
  json_Marshal_msg : BrokerMessage -> error + bytes;
  json_Marshal_resp : DialChannelResponse -> error + bytes;
  url_Parse : string -> error + string;
  (* the signaling stream *)
  conn_Write : history -> bytes -> option error;
  (* ICE and the peer *)
  DialICE : history -> ICEServer -> option error;
  newPeerConnection :
    history -> list ICEServer -> option turnProxyDialer -> option error;
  rtc_ConnectionState : history -> PeerId -> PeerConnectionState;
  rtc_SetRemoteDescription : history -> PeerId -> SessionDescription -> option error;
  rtc_CreateAnswer : history -> PeerId -> error + SessionDescription;
  rtc_SetLocalDescription : history -> PeerId -> SessionDescription -> option error;
  rtc_LocalDescription : history -> PeerId -> option SessionDescription;
  rtc_AddICECandidate : history -> PeerId -> ICECandidateInit -> option error;
  (* data channels and targets *)
  dc_Detach : history -> DcId -> option error;
  rw_Write : history -> DcId -> bytes -> option error;
  net_Dial : history -> string -> string -> option error;
  (* the broker *)
  websocket_Dial : history -> string -> wsDialResult;
  yamux_Server : history -> WsId -> option error;
  session_Accept_error : history -> WsId -> option error;
  ws_Close : history -> WsId -> option error
}.

(** ** One negotiation: the local variables of [negotiate] and the listener *)

Record NegState : Type := mkNegState {
  lst : listener;                              (* the receiver [l] *)
  rtc : option PeerId;                         (* nil is [None] *)
  pendingCandidates : list ICECandidateInit;
  nextPeer : PeerId;                           (* identity of the next peer *)
  trace : history
}.

Definition initNeg (l : listener) (fresh : PeerId) : NegState :=
  mkNegState l None [] fresh [].

(** How a piece of the loop body ends: it falls through to the next
    statement, it executes [continue], or it returns from [negotiate]. *)
Inductive ctl (A : Type) : Type :=
| Next (a : A)
| Continue
| Return.
Arguments Next {A} a.
Arguments Continue {A}.
Arguments Return {A}.

Definition Neg (A : Type) : Type := NegState -> ctl A * NegState.

Definition ret {A} (a : A) : Neg A := fun s => (Next a, s).

Definition bind {A B} (m : Neg A) (k : A -> Neg B) : Neg B :=
  fun s =>
    match m s with
    | (Next a, s') => k a s'
    | (Continue, s') => (Continue, s')
    | (Return, s') => (Return, s')
    end.

Declare Scope neg_scope.
Delimit Scope neg_scope with neg.
Notation "x <- m ;; k" := (bind m (fun x => k))
  (at level 61, m at next level, right associativity) : neg_scope.
Notation "m ;; k" := (bind m (fun _ => k))
  (at level 61, right associativity) : neg_scope.
Local Open Scope neg_scope.

Definition continue_ {A} : Neg A := fun s => (Continue, s).
Definition return_ {A} : Neg A := fun s => (Return, s).

Definition set_trace (t : history) (s : NegState) : NegState :=
  mkNegState (lst s) (rtc s) (pendingCandidates s) (nextPeer s) t.
Definition set_rtc (r : option PeerId) (s : NegState) : NegState :=
  mkNegState (lst s) r (pendingCandidates s) (nextPeer s) (trace s).
Definition set_pending (p : list ICECandidateInit) (s : NegState) : NegState :=
  mkNegState (lst s) (rtc s) p (nextPeer s) (trace s).
Definition set_nextPeer (n : PeerId) (s : NegState) : NegState :=
  mkNegState (lst s) (rtc s) (pendingCandidates s) n (trace s).
Definition set_connClosers (c : list PeerId) (s : NegState) : NegState :=
  mkNegState
    (mkListener (broker (lst s)) (turnProxyAuthToken (lst s))
                (acceptError (lst s)) (ws (lst s)) c)
    (rtc s) (pendingCandidates s) (nextPeer s) (trace s).

(** An outside call: its result is the oracle's answer on the history so
    far, and the call is appended to the history. *)
Definition call {R} (ev : event) (oracle : history -> R) : Neg R :=
  fun s => (Next (oracle (trace s)), set_trace (trace s ++ [ev]) s).

Definition get_rtc : Neg (option PeerId) := fun s => (Next (rtc s), s).
Definition get_pending : Neg (list ICECandidateInit) :=
  fun s => (Next (pendingCandidates s), s).
Definition modify (f : NegState -> NegState) : Neg unit :=
  fun s => (Next tt, f s).

(** [d, _ := json.Marshal(v)]: the error is dropped, [d] is nil on failure. *)
Definition marshal_or_nil (r : error + bytes) : bytes :=
  match r with inl _ => [] | inr d => d end.

Section Negotiate.
Variable E : Env.

(** The closure [closeError]: sends the error provided then closes the
    connection; if RTC isn't connected it is closed too. *)
Definition closeError (err : error) : Neg unit :=
  let d := marshal_or_nil (json_Marshal_msg E (errorMessage (Error err))) in
  _ <- call (EvConnWrite d) (fun h => conn_Write E h d) ;;
  _ <- call EvConnClose (fun _ => tt) ;;
  r <- get_rtc ;;
  match r with
  | Some p =>
      fun s =>
        if negb (pcs_eqb (rtc_ConnectionState E (trace s) p)
                         PeerConnectionStateConnected)
        then (call (EvPeerClose p) (fun _ => tt) ;; modify (set_rtc None)) s
        else ret tt s
  | None => ret tt
  end.

(** Lines 192-203: the loop over [msg.Servers]. *)
Fixpoint validateServers (servers : list ICEServer) : Neg unit :=
  match servers with
  | [] => ret tt
  | server :: rest =>
      if String.eqb (Username server) (turnProxyMagicUsername E)
      then validateServers rest
      else
        err <- call (EvDialICE server) (fun h => DialICE E h server) ;;
        match err with
        | Some e =>
            closeError
              (Errorf_w ("dial server " ++ fmt_strings (URLs server) ++ ": ") e) ;;
            return_
        | None => validateServers rest
        end
  end.

(** Lines 262-268: the loop over [pendingCandidates]. *)
Fixpoint addPending (p : PeerId) (cs : list ICECandidateInit) : Neg unit :=
  match cs with
  | [] => ret tt
  | candidate :: rest =>
      err <- call (EvAddICECandidate p candidate)
                  (fun h => rtc_AddICECandidate E h p candidate) ;;
      match err with
      | Some e => closeError (Errorf_w "add pending candidate: " e) ;; return_
      | None => addPending p rest
      end
  end.

(** Lines 170-185. *)
Definition onCandidate (msg : BrokerMessage) : Neg unit :=
  if negb (String.eqb (Candidate msg) "") then
    let c := mkICECandidateInit (Candidate msg) in
    r <- get_rtc ;;
    match r with
    | None =>
        modify (fun s => set_pending (pendingCandidates s ++ [c]) s) ;;
        continue_
    | Some p =>
        err <- call (EvAddICECandidate p c)
                    (fun h => rtc_AddICECandidate E h p c) ;;
        match err with
        | Some e => closeError (Errorf_w "accept ice candidate: " e) ;; return_
        | None => ret tt
        end
    end
  else ret tt.

(** Lines 204-215. *)
Definition makeTurnProxy (msg : BrokerMessage) : Neg (option turnProxyDialer) :=
  if negb (String.eqb (TURNProxyURL msg) "") then
    match url_Parse E (TURNProxyURL msg) with
    | inl e => closeError (Errorf_w "parse turn proxy url: " e) ;; return_
    | inr u =>
        fun s => ret (Some (mkTurnProxyDialer u (turnProxyAuthToken (lst s)))) s
    end
  else ret None.

(** Lines 216-220: [rtc, err = newPeerConnection(...)].  The function is not
    among the sources; as every Go constructor it is taken to return a nil
    peer together with a non-nil error. *)
Definition createPeer (servers : list ICEServer)
           (turnProxy : option turnProxyDialer) : Neg PeerId :=
  err <- call (EvNewPeerConnection servers turnProxy)
              (fun h => newPeerConnection E h servers turnProxy) ;;
  match err with
  | Some e => modify (set_rtc None) ;; closeError e ;; return_
  | None =>
      fun s =>
        let p := nextPeer s in
        (Next p, set_nextPeer (S p) (set_rtc (Some p) s))
  end.

(** Lines 192-231: validate the servers, build the peer, register it. *)
Definition preparePeer (msg : BrokerMessage) (servers : list ICEServer)
  : Neg PeerId :=
  validateServers servers ;;
  turnProxy <- makeTurnProxy msg ;;
  p <- createPeer servers turnProxy ;;
  call (EvOnConnectionStateChange p) (fun _ => tt) ;;
  call (EvProxyICECandidates p) (fun _ => tt) ;;
  modify (fun s => set_connClosers (connClosers (lst s) ++ [p]) s) ;;
  call (EvOnDataChannel p msg) (fun _ => tt) ;;
  ret p.

(** Lines 249-269: send the answer, then add the buffered candidates. *)
Definition sendAnswer (p : PeerId) : Neg unit :=
  ld <- (fun s => ret (rtc_LocalDescription E (trace s) p) s) ;;
  match json_Marshal_msg E (answerMessage ld) with
  | inl e => closeError (Errorf_w "marshal: " e) ;; return_
  | inr data =>
      err <- call (EvConnWrite data) (fun h => conn_Write E h data) ;;
      match err with
      | Some e => closeError (Errorf_w "write: " e) ;; return_
      | None =>
          cs <- get_pending ;;
          addPending p cs ;;
          modify (set_pending [])
      end
  end.

(** Lines 232-269: apply the offer, answer it. *)
Definition answerOffer (p : PeerId) (offer : SessionDescription) : Neg unit :=
  err <- call (EvSetRemoteDescription p offer)
              (fun h => rtc_SetRemoteDescription E h p offer) ;;
  match err with
  | Some e => closeError (Errorf_w "apply offer: " e) ;; return_
  | None =>
      ans <- call (EvCreateAnswer p) (fun h => rtc_CreateAnswer E h p) ;;
      match ans with
      | inl e => closeError (Errorf_w "create answer: " e) ;; return_
      | inr answer =>
          err <- call (EvSetLocalDescription p answer)
                      (fun h => rtc_SetLocalDescription E h p answer) ;;
          match err with
          | Some e => closeError (Errorf_w "set local answer: " e) ;; return_
          | None =>
              call (EvFlushCandidates p) (fun _ => tt) ;;
              sendAnswer p
          end
      end
  end.

(** Lines 187-270. *)
Definition onOffer (msg : BrokerMessage) : Neg unit :=
  match Offer msg with
  | None => ret tt
  | Some offer =>
      match Servers msg with
      | None => closeError (errors_New "ICEServers must be provided") ;; return_
      | Some servers =>
          p <- preparePeer msg servers ;;
          answerOffer p offer
      end
  end.

(** The body of the [for] loop after a frame was decoded. *)
Definition onFrame (msg : BrokerMessage) : Neg unit :=
  onCandidate msg ;; onOffer msg.

(** How far [negotiate] got on a finite prefix of the stream. *)
Inductive negStatus : Type :=
| Decoding       (* blocked in [decoder.Decode], waiting for a frame *)
| Returned.      (* [negotiate] returned *)

(** [negotiate(conn)] on the sequence of results of [decoder.Decode]:
    a decoded frame, or the decode error that ends the stream. *)
Fixpoint negotiate_loop (input : list (error + BrokerMessage)) (s : NegState)
  : negStatus * NegState :=
  match input with
  | [] => (Decoding, s)
  | inl err :: _ =>
      (Returned, snd ((closeError err ;; return_ (A := unit)) s))
  | inr msg :: rest =>
      match onFrame msg s with
      | (Return, s') => (Returned, s')
      | (_, s') => negotiate_loop rest s'
      end
  end.

Definition negotiate (l : listener) (fresh : PeerId)
           (input : list (error + BrokerMessage)) : negStatus * NegState :=
  negotiate_loop input (initNeg l fresh).

(** The callback peer [p] is given in [rtc.OnConnectionStateChange]
    (lines 221-226): it captures [conn] only. *)
Definition onConnectionStateChange (p : PeerId) (pcs : PeerConnectionState)
           (s : NegState) : NegState :=
  if pcs_eqb pcs PeerConnectionStateConnecting then s
  else set_trace (trace s ++ [EvConnClose]) s.

End Negotiate.

(** ** The listener session: [Close], [dial], [Listen] and its watcher *)

(** What a call of [Close] does to its caller. *)
Inductive closeResult : Type :=
| CloseReturned (err : option error)
| ClosePanicked.      (* [l.ws] is nil: nil pointer dereference *)

Record SupState : Type := mkSupState {
  sup_l : listener;                 (* the listener [l] *)
  ch : option WsId;                 (* the variable [ch]; a nil channel is [None] *)
  nextWs : WsId;                    (* identity of the next websocket *)
  sup_trace : history
}.

Definition sup_set_trace (t : history) (s : SupState) : SupState :=
  mkSupState (sup_l s) (ch s) (nextWs s) t.
Definition sup_set_ch (c : option WsId) (s : SupState) : SupState :=
  mkSupState (sup_l s) c (nextWs s) (sup_trace s).
Definition l_set_ws (w : option WsId) (l : listener) : listener :=
  mkListener (broker l) (turnProxyAuthToken l) (acceptError l) w (connClosers l).
Definition l_set_acceptError (e : option error) (l : listener) : listener :=
  mkListener (broker l) (turnProxyAuthToken l) e (ws l) (connClosers l).

(** The select statement of the watcher's inner loop fires on the ticker or
    on [ctx.Done()]; [ctx.Err()] is then one of the two context errors. *)
Inductive selectEvent : Type :=
| TickerC
| CtxDone (deadline : bool).

Definition ctx_Err (deadline : bool) : error :=
  Sentinel (if deadline then context_DeadlineExceeded else context_Canceled).

(** How far the watcher goroutine got. *)
Inductive supStatus : Type :=
| Receiving      (* blocked in [<-ch] *)
| Selecting      (* blocked in the [select] of the retry loop *)
| Finished.      (* left the outer loop *)

Section Session.
Variable E : Env.

(** [listener.Close]: closes the broker socket and all created RTC
    connections. *)
Definition Close (l : listener) (h : history) : closeResult * history :=
  let h1 := h ++ map EvPeerClose (connClosers l) in
  match ws l with
  | None => (ClosePanicked, h1)
  | Some w => (CloseReturned (ws_Close E h1 w), h1 ++ [EvWsClose w ""])
  end.

(** [listener.dial]: on success the result is the new error channel,
    named by the websocket whose accept loop writes to it. *)
Definition dial (s : SupState) : (error + WsId) * SupState :=
  let l := sup_l s in
  let h1 :=
    match ws l with
    | Some old => sup_trace s ++ [EvWsClose old "new connection inbound"]
    | None => sup_trace s
    end in
  match websocket_Dial E h1 (broker l) with
  | WsDialErr resp err =>
      let s1 := sup_set_trace (h1 ++ [EvWsDial (broker l)]) s in
      match resp with
      | Some r => (inl (coder_NewHTTPError E r), s1)
      | None => (inl err, s1)
      end
  | WsDialOk =>
      let conn := nextWs s in
      let h2 := h1 ++ [EvWsDial (broker l); EvWsOpened conn] in
      let s1 := mkSupState (l_set_ws (Some conn) l) (ch s) (S conn)
                           (h2 ++ [EvYamuxServer conn]) in
      match yamux_Server E h2 conn with
      | Some e => (inl (Errorf_w "create multiplex: " e), s1)
      | None => (inr conn, s1)
      end
  end.

(** [Listen] up to the start of the watcher goroutine. *)
Definition Listen (broker turnProxyAuthToken : string) (fresh : WsId)
  : (error + unit) * SupState :=
  let l := mkListener broker turnProxyAuthToken None None [] in
  match dial (mkSupState l None fresh []) with
  | (inl err, s) => (inl err, s)
  | (inr c, s) => (inr tt, sup_set_ch (Some c) s)
  end.

(** Lines 78-82: [l.acceptError = err; _ = l.Close(); break]. *)
Definition storeAndClose (err : error) (s : SupState) : supStatus * SupState :=
  let l := l_set_acceptError (Some err) (sup_l s) in
  (Finished, mkSupState l (ch s) (nextWs s) (snd (Close l (sup_trace s)))).

(** [ch, err = l.dial(ctx)] *)
Definition redial (s : SupState) : option error * SupState :=
  match dial s with
  | (inl e, s1) => (Some e, sup_set_ch None s1)
  | (inr c, s1) => (None, sup_set_ch (Some c) s1)
  end.

(** Line 72: the test that leaves the retry loop. *)
Definition retryDone (err : option error) : bool :=
  match err with
  | None => true
  | Some e => errors_Is e context_Canceled || errors_Is e context_DeadlineExceeded
  end.

(** One turn of the outer loop up to the retry loop [k]: receive the error
    of the accept loop, and either start a ticker and retry, or stop. *)
Definition receive (k : SupState -> supStatus * SupState) (s : SupState)
  : supStatus * SupState :=
  match ch s with
  | None => (Receiving, s)
  | Some c =>
      match session_Accept_error E (sup_trace s) c with
      | None => (Receiving, s)
      | Some err =>
          if errors_Is err io_EOF || errors_Is err yamux_ErrKeepAliveTimeout
          then k (sup_set_trace
                    (sup_trace s ++ [EvNewTicker connectionRetryInterval]) s)
          else storeAndClose err s
      end
  end.

(** The retry loop (lines 65-75) followed by the rest of the outer loop,
    on the sequence of outcomes of its [select]. *)
Fixpoint retry (sels : list selectEvent) (s : SupState) : supStatus * SupState :=
  match sels with
  | [] => (Selecting, s)
  | sel :: rest =>
      let '(err, s1) :=
        match sel with
        | TickerC => redial s
        | CtxDone deadline => (Some (ctx_Err deadline), s)
        end in
      if retryDone err then
        let s2 := sup_set_trace (sup_trace s1 ++ [EvTickerStop]) s1 in
        match err with
        | Some e => storeAndClose e s2
        | None => receive (retry rest) s2
        end
      else retry rest s1
  end.

(** The goroutine started by [Listen]. *)
Definition watcher (sels : list selectEvent) (s : SupState) : supStatus * SupState :=
  receive (retry sels) s.

End Session.

(** The websockets opened and not yet closed, in the order they were
    opened. *)
Definition live_step (live : list WsId) (ev : event) : list WsId :=
  match ev with
  | EvWsOpened w => live ++ [w]
  | EvWsClose w _ => filter (fun x => negb (Nat.eqb x w)) live
  | _ => live
  end.

Definition live_ws (h : history) : list WsId := fold_left live_step h [].

(** ** Data channels: [listener.handle] *)

(** What one [rw.Read(d)] delivers: the bytes copied into [d] and the
    error. *)
Record readResult : Type := mkReadResult {
  rd_data : bytes;
  rd_err : option error
}.

Inductive echoStatus : Type :=
| Reading        (* blocked in [rw.Read] *)
| EchoReturned.  (* the handler returned *)

(** The object an event acts on. *)
Inductive target : Type :=
| OnConn
| OnPeer (p : PeerId)
| OnChannel (dc : DcId)
| OnNetwork
| OnBroker.

Definition event_target (ev : event) : target :=
  match ev with
  | EvConnWrite _ | EvConnClose => OnConn
  | EvDialICE _ | EvNetDial _ _ => OnNetwork
  | EvNewPeerConnection _ _ => OnNetwork
  | EvOnConnectionStateChange p | EvProxyICECandidates p | EvOnDataChannel p _
  | EvSetRemoteDescription p _ | EvCreateAnswer p | EvSetLocalDescription p _
  | EvFlushCandidates p | EvAddICECandidate p _ | EvPeerClose p => OnPeer p
  | EvDetach dc | EvRwRead dc _ | EvRwWrite dc _ | EvRwClose dc | EvDcClose dc
  | EvBridge dc | EvCopyBack dc | EvCoClose dc | EvNcClose dc => OnChannel dc
  | EvWsDial _ | EvWsOpened _ | EvWsClose _ _ | EvYamuxServer _
  | EvNewTicker _ | EvTickerStop => OnBroker
  end.

Section Handle.
Variable E : Env.

(** Lines 284-294: the ping loop on the one-byte buffer [d], on the
    sequence of results of [rw.Read(d)]. *)
Fixpoint echoLoop (dc : DcId) (reads : list readResult) (d : byte) (h : history)
  : echoStatus * history :=
  match reads with
  | [] => (Reading, h ++ [EvRwRead dc 1])
  | r :: rest =>
      let h1 := h ++ [EvRwRead dc 1] in
      let d1 := match rd_data r with b :: _ => b | [] => d end in
      match rd_err r with
      | Some err =>
          if errors_Is err io_EOF then (EchoReturned, h1)
          else echoLoop dc rest d1 h1
      | None => echoLoop dc rest d1 (h1 ++ [EvRwWrite dc [d1]])
      end
  end.

(** Lines 278-295: the [OnOpen] callback of the control channel. *)
Definition controlOpen (dc : DcId) (reads : list readResult) (h : history)
  : echoStatus * history :=
  match dc_Detach E h dc with
  | Some _ => (EchoReturned, h ++ [EvDetach dc])
  | None => echoLoop dc reads x00 (h ++ [EvDetach dc])
  end.

(** Lines 306-321: the closure [sendInitMessage]. *)
Definition sendInitMessage (dc : DcId) (init : DialChannelResponse) (h : history)
  : history :=
  match json_Marshal_resp E init with
  | inl _ => h ++ [EvRwClose dc]
  | inr initData =>
      match rw_Write E h dc initData with
      | Some _ => h ++ [EvRwWrite dc initData]
      | None =>
          if negb (String.eqb (Err init) "")
          then h ++ [EvRwWrite dc initData; EvDcClose dc]
          else h ++ [EvRwWrite dc initData]
      end
  end.

Definition zeroResponse : DialChannelResponse := mkDialChannelResponse "" "" "" "".

(** Lines 324-330: the response to an address that [getAddress] refuses. *)
Definition addressErrorResponse (err : error) : DialChannelResponse :=
  mkDialChannelResponse
    (if errors_As_policy err then CodePermissionErr else CodeBadAddressErr)
    (Error err) "" "".

(** Lines 336-343: the response after [net.Dial]. *)
Definition dialResponse (res : option error) : DialChannelResponse :=
  match res with
  | None => zeroResponse
  | Some err =>
      match as_OpError err with
      | Some (net, op) => mkDialChannelResponse CodeDialErr (Error err) net op
      | None => mkDialChannelResponse CodeDialErr (Error err) "" ""
      end
  end.

(** Lines 299-363: the [OnOpen] callback of an application channel, as the
    calls the callback itself makes.  [EvBridge] is the [go] statement of
    line 358 followed by the callback's own [io.Copy(nc, co)]; the deferred
    [co.Close] and [nc.Close] follow.  What the goroutine started there
    calls is [copyBack], collected by [applicationSpawned]. *)
Definition applicationOpen (msg : BrokerMessage) (dc : DcId) (protocol : string)
           (h : history) : history :=
  match dc_Detach E h dc with
  | Some _ => h ++ [EvDetach dc]
  | None =>
      let h1 := h ++ [EvDetach dc] in
      match getAddress E msg protocol with
      | inl err => sendInitMessage dc (addressErrorResponse err) h1
      | inr (network, addr) =>
          let init := dialResponse (net_Dial E h1 network addr) in
          let h2 := sendInitMessage dc init (h1 ++ [EvNetDial network addr]) in
          if negb (String.eqb (Err init) "") then h2
          else h2 ++ [EvBridge dc; EvCoClose dc; EvNcClose dc]
      end
  end.

(** The callback [l.handle(msg)] once the channel opened. *)
Definition handle (msg : BrokerMessage) (dc : DcId) (protocol : string)
           (reads : list readResult) (h : history) : history :=
  if String.eqb protocol (controlChannel E)
  then snd (controlOpen dc reads h)
  else applicationOpen msg dc protocol h.

(** Lines 358-361: the calls of the goroutine the callback starts before its
    own copy: [io.Copy(co, nc)], then the deferred [dc.Close()].  They run
    beside the callback's calls from [EvBridge] on. *)
Definition copyBack (dc : DcId) : list event := [EvCopyBack dc; EvDcClose dc].

(** The calls of the goroutines an application channel's callback starts:
    the [go] statement is reached only after a successful detach, address
    and dial. *)
Definition applicationSpawned (msg : BrokerMessage) (dc : DcId)
           (protocol : string) (h : history) : list event :=
  match dc_Detach E h dc with
  | Some _ => []
  | None =>
      match getAddress E msg protocol with
      | inl _ => []
      | inr (network, addr) =>
          let init := dialResponse (net_Dial E (h ++ [EvDetach dc]) network addr) in
          if negb (String.eqb (Err init) "") then [] else copyBack dc
      end
  end.

(** The calls of the goroutines [l.handle(msg)] starts once the channel
    opened; the control channel starts none. *)
Definition spawned (msg : BrokerMessage) (dc : DcId) (protocol : string)
           (h : history) : list event :=
  if String.eqb protocol (controlChannel E) then []
  else applicationSpawned msg dc protocol h.

End Handle.

(** ** Predicates used by the statements *)

(** [pre] is an initial segment of [h]: the history at some earlier time. *)
Definition earlier (pre h : history) : Prop := exists suf, h = pre ++ suf.

(** At no time were two broker websockets open at once. *)
Definition one_live_ws (h : history) : Prop :=
  forall pre, earlier pre h -> List.length (live_ws pre) <= 1.

(** The only websocket that may be open is the one stored in [l.ws]. *)
Definition live_is_stored (s : SupState) : Prop :=
  forall w, In w (live_ws (sup_trace s)) -> ws (sup_l s) = Some w.

Definition is_WsDial (ev : event) : bool :=
  match ev with EvWsDial _ => true | _ => false end.

(** The number of calls of [websocket.Dial] so far. *)
Definition count_dials (h : history) : nat := List.length (filter is_WsDial h).


(** An environment in which every step of answering an offer succeeds. *)
Record cooperative (E : Env) (answer : SessionDescription) (data : bytes) : Prop := {
  coop_probe : forall h server, DialICE E h server = None;
  coop_peer : forall h servers tp, newPeerConnection E h servers tp = None;
  coop_remote : forall h p sd, rtc_SetRemoteDescription E h p sd = None;
  coop_answer : forall h p, rtc_CreateAnswer E h p = inr answer;
  coop_local : forall h p sd, rtc_SetLocalDescription E h p sd = None;
  coop_marshal : forall h p,
      json_Marshal_msg E (answerMessage (rtc_LocalDescription E h p)) = inr data;
  coop_write : forall h d, conn_Write E h d = None;
  coop_candidate : forall h p c, rtc_AddICECandidate E h p c = None
}.

(** A frame that carries a candidate and nothing else. *)
Definition candidateFrame (c : string) : BrokerMessage :=
  mkBrokerMessage None None "" "" None c.

(** A frame that carries an offer with its servers and no proxy URL. *)
Definition offerFrame (offer : SessionDescription) (servers : list ICEServer)
  : BrokerMessage :=
  mkBrokerMessage (Some offer) (Some servers) "" "" None "".

Definition is_sentinel_server (E : Env) (server : ICEServer) : bool :=
  String.eqb (Username server) (turnProxyMagicUsername E).

(** The servers validation has to probe: all but the sentinel ones. *)
Definition probed (E : Env) (servers : list ICEServer) : list ICEServer :=
  filter (fun server => negb (is_sentinel_server E server)) servers.

(** The events of [closeError err] run at history [h] with peer [r]:
    the error frame, the close of the stream and, for a peer that is not
    connected, its close. *)
Definition errorReport (E : Env) (h : history) (r : option PeerId) (err : error)
  : list event :=
  let d := marshal_or_nil (json_Marshal_msg E (errorMessage (Error err))) in
  [EvConnWrite d; EvConnClose] ++
  match r with
  | None => []
  | Some p =>
      if pcs_eqb (rtc_ConnectionState E (h ++ [EvConnWrite d; EvConnClose]) p)
                 PeerConnectionStateConnected
      then [] else [EvPeerClose p]
  end.

(** The four named causes of a negotiation error: the error handed to
    [closeError] and the state in which it is called, for frame [msg]
    arriving in state [s]. *)
Inductive negotiationError (E : Env) (s : NegState) (msg : BrokerMessage)
  : error -> NegState -> Prop :=
| NE_missing_servers s1 offer :
    onCandidate E msg s = (Next tt, s1) ->
    Offer msg = Some offer ->
    Servers msg = None ->
    negotiationError E s msg (errors_New "ICEServers must be provided") s1
| NE_ice_unreachable s1 s2 offer pre server post e :
    onCandidate E msg s = (Next tt, s1) ->
    Offer msg = Some offer ->
    Servers msg = Some (pre ++ server :: post) ->
    validateServers E pre s1 = (Next tt, s2) ->
    is_sentinel_server E server = false ->
    DialICE E (trace s2) server = Some e ->
    negotiationError E s msg
      (Errorf_w ("dial server [" ++ String.concat " " (URLs server) ++ "]: ") e)
      (set_trace (trace s2 ++ [EvDialICE server]) s2)
| NE_apply_offer s1 s2 offer servers p e :
    onCandidate E msg s = (Next tt, s1) ->
    Offer msg = Some offer ->
    Servers msg = Some servers ->
    preparePeer E msg servers s1 = (Next p, s2) ->
    rtc_SetRemoteDescription E (trace s2) p offer = Some e ->
    negotiationError E s msg (Errorf_w "apply offer: " e)
      (set_trace (trace s2 ++ [EvSetRemoteDescription p offer]) s2)
| NE_create_answer s1 s2 offer servers p e :
    onCandidate E msg s = (Next tt, s1) ->
    Offer msg = Some offer ->
    Servers msg = Some servers ->
    preparePeer E msg servers s1 = (Next p, s2) ->
    rtc_SetRemoteDescription E (trace s2) p offer = None ->
    rtc_CreateAnswer E (trace s2 ++ [EvSetRemoteDescription p offer]) p = inl e ->
    negotiationError E s msg (Errorf_w "create answer: " e)
      (set_trace
         (trace s2 ++ [EvSetRemoteDescription p offer; EvCreateAnswer p]) s2).

(** The reads the listener sees when the dialer writes the bytes [pings],
    one byte per message, and then closes the channel. *)
Definition pingReads (pings : list byte) (eof : error) : list readResult :=
  map (fun b => mkReadResult [b] None) pings ++ [mkReadResult [] (Some eof)].

(** The echo of each ping: a one-byte read followed by a write of that byte. *)
Definition pongs (dc : DcId) (pings : list byte) : list event :=
  flat_map (fun b => [EvRwRead dc 1; EvRwWrite dc [b]]) pings.

(** The closer list of [s'] extends that of [s]. *)
Definition grows (s s' : NegState) : Prop :=
  exists added, connClosers (lst s') = connClosers (lst s) ++ added.

(** Every run of [m] only extends the closer list. *)
Definition growing {A} (m : Neg A) : Prop := forall s, grows s (snd (m s)).

(** [Listen] and then the watcher, which runs only when [Listen] returned
    the listener. *)
Definition runSession (E : Env) (broker turnProxyAuthToken : string)
           (fresh : WsId) (sels : list selectEvent) : supStatus * SupState :=
  match Listen E broker turnProxyAuthToken fresh with
  | (inl _, s) => (Finished, s)
  | (inr _, s) => watcher E sels s
  end.

(** The invariant of the session: never two websockets open at once, and an
    open one is the one the listener holds. *)
Definition session_ok (s : SupState) : Prop :=
  one_live_ws (sup_trace s) /\ live_is_stored s.

(** The events of a call of [dial] from state [s] with outcome [opened]. *)
Definition dialEvents (s : SupState) (opened : bool) : list event :=
  match ws (sup_l s) with
  | Some old => [EvWsClose old "new connection inbound"]
  | None => []
  end ++
  EvWsDial (broker (sup_l s)) ::
  (if opened then [EvWsOpened (nextWs s); EvYamuxServer (nextWs s)] else []).

(** The invariant on the two things it reads: the stored websocket and the
    history. *)
Definition stored_ok (stored : option WsId) (h : history) : Prop :=
  one_live_ws h /\ forall w, In w (live_ws h) -> stored = Some w.

(** ** Concrete environments and inputs *)

Definition encode (s : string) : bytes := list_byte_of_string s.

Definition testMarshalMsg (m : BrokerMessage) : error + bytes :=
  inr (encode ("error=" ++ Error_ m ++ ";answer="
               ++ match Answer m with Some a => sdp a | None => "" end
               ++ ";candidate=" ++ Candidate m)).

Definition testMarshalResp (r : DialChannelResponse) : error + bytes :=
  inr (encode ("code=" ++ Code r ++ ";err=" ++ Err r
               ++ ";net=" ++ Net r ++ ";op=" ++ Op r)).

Definition testGetAddress (msg : BrokerMessage) (protocol : string)
  : error + (string * string) :=
  if String.eqb protocol "tcp:127.0.0.1:22" then inr ("tcp", "127.0.0.1:22")
  else if String.eqb protocol "tcp:10.0.0.1:22"
       then inl (PolicyErr "address not permitted by policy")
       else inl (errors_New "missing port").

(** Closing a websocket a second time fails. *)
Definition testWsClose (h : history) (w : WsId) : option error :=
  if existsb (fun ev => match ev with
                        | EvWsClose w' _ => Nat.eqb w' w
                        | _ => false
                        end) h
  then Some (errors_New "failed to close WebSocket: already wrote close")
  else None.

Definition testAnswer : SessionDescription := mkSessionDescription "answer" "v=0 a".
Definition testOffer : SessionDescription := mkSessionDescription "offer" "v=0 o".

Definition testEnv
           (dialICE : ICEServer -> option error)
           (setRemote : option error)
           (createAnswer : error + SessionDescription)
           (connState : PeerConnectionState)
           (netDial : option error)
           (wsDial : history -> wsDialResult)
           (accept : history -> option error) : Env :=
  {| turnProxyMagicUsername := "~magicalusername~";
     controlChannel := "control";
     getAddress := testGetAddress;
     coder_NewHTTPError := fun _ => errors_New "http error";
     json_Marshal_msg := testMarshalMsg;
     json_Marshal_resp := testMarshalResp;
     url_Parse := fun u => inr u;
     conn_Write := fun _ _ => None;
     DialICE := fun _ => dialICE;
     newPeerConnection := fun _ _ _ => None;
     rtc_ConnectionState := fun _ _ => connState;
     rtc_SetRemoteDescription := fun _ _ _ => setRemote;
     rtc_CreateAnswer := fun _ _ => createAnswer;
     rtc_SetLocalDescription := fun _ _ _ => None;
     rtc_LocalDescription := fun _ _ => Some testAnswer;
     rtc_AddICECandidate := fun _ _ _ => None;
     dc_Detach := fun _ _ => None;
     rw_Write := fun _ _ _ => None;
     net_Dial := fun _ _ _ => netDial;
     websocket_Dial := fun h _ => wsDial h;
     yamux_Server := fun _ _ => None;
     session_Accept_error := fun h _ => accept h;
     ws_Close := testWsClose |}.

(** Everything works and the broker never drops the session. *)
Definition happyEnv : Env :=
  testEnv (fun _ => None) None (inr testAnswer) PeerConnectionStateNew None
          (fun _ => WsDialOk) (fun _ => None).

Definition stunServer : ICEServer :=
  mkICEServer ["stun:stun.example.org:3478"] "" "".
Definition deadServer : ICEServer :=
  mkICEServer ["turn:10.255.255.1:3478"; "turn:10.255.255.2:3478"] "user" "pass".
Definition sentinelServer : ICEServer :=
  mkICEServer ["turn:127.0.0.1:3478"] "~magicalusername~" "dummy".

Definition refused : error :=
  net_OpError "dial" "tcp" "127.0.0.1:22" (errors_New "connect: connection refused").

(** ICE probing fails on [deadServer]; an existing peer is connected. *)
Definition deadIceEnv : Env :=
  testEnv (fun server =>
             if String.eqb (Username server) "user"
             then Some (errors_New "i/o timeout") else None)
          None (inr testAnswer) PeerConnectionStateConnected None
          (fun _ => WsDialOk) (fun _ => None).

(** The peer rejects the offer. *)
Definition badOfferEnv : Env :=
  testEnv (fun _ => None) (Some (errors_New "invalid SDP")) (inr testAnswer)
          PeerConnectionStateNew None (fun _ => WsDialOk) (fun _ => None).

(** The peer cannot create an answer. *)
Definition noAnswerEnv : Env :=
  testEnv (fun _ => None) None (inl (errors_New "no codecs"))
          PeerConnectionStateNew None (fun _ => WsDialOk) (fun _ => None).

(** The target refuses the connection. *)
Definition refusingEnv : Env :=
  testEnv (fun _ => None) None (inr testAnswer) PeerConnectionStateNew
          (Some refused) (fun _ => WsDialOk) (fun _ => None).

(** The accept loop ends with an error that is not retried. *)
Definition brokenSessionEnv : Env :=
  testEnv (fun _ => None) None (inr testAnswer) PeerConnectionStateNew None
          (fun _ => WsDialOk) (fun _ => Some (errors_New "session shutdown")).

(** The broker drops the session with EOF once; the second and third dial
    fail, the fourth succeeds and that session stays up. *)
Definition flakyBrokerEnv : Env :=
  testEnv (fun _ => None) None (inr testAnswer) PeerConnectionStateNew None
          (fun h => match count_dials h with
                    | 1 | 2 => WsDialErr None (errors_New "connection refused")
                    | _ => WsDialOk
                    end)
          (fun h => match count_dials h with
                    | 1 => Some (Sentinel io_EOF)
                    | _ => None
                    end).

Definition testListener : listener := mkListener "ws://broker/listen" "token" None None [].

(** A negotiation that already holds peer 0 from an earlier offer. *)
Definition renegotiating : NegState := mkNegState testListener (Some 0) [] 1 [].

Definition deadOffer : BrokerMessage :=
  offerFrame testOffer [stunServer; sentinelServer; deadServer].

Definition plainOffer : BrokerMessage :=
  offerFrame testOffer [stunServer; sentinelServer].


(** The state in which [badOfferEnv] rejects [plainOffer]. *)
Definition offerRejected : NegState :=
  mkNegState (mkListener "ws://broker/listen" "token" None None [0])
             (Some 0) [] 1
             [EvDialICE stunServer;
              EvNewPeerConnection [stunServer; sentinelServer] None;
              EvOnConnectionStateChange 0; EvProxyICECandidates 0;
              EvOnDataChannel 0 plainOffer; EvSetRemoteDescription 0 testOffer].


(** The answer frame as [happyEnv] encodes it. *)
Definition testAnswerData : bytes :=
  marshal_or_nil (testMarshalMsg (answerMessage (Some testAnswer))).


(** A listener whose broker websocket 0 is open. *)
Definition liveListener : listener :=
  mkListener "ws://broker/listen" "token" None (Some 0) [].

(** [liveListener] after one successful negotiation of [plainOffer]. *)
Definition negotiated : NegState :=
  snd (negotiate happyEnv liveListener 0 [inr plainOffer]).


(** The session whose accept loop ended with an error that is not retried. *)
Definition brokenSession : SupState :=
  snd (runSession brokenSessionEnv "ws://broker/listen" "token" 0 []).

(** The session that lost the broker and was cancelled while retrying. *)
Definition cancelledSession : SupState :=
  snd (runSession flakyBrokerEnv "ws://broker/listen" "token" 0
                  [TickerC; CtxDone false]).


(** [flakyBrokerEnv] after [Listen] returned the listener. *)
Definition flakyListening : SupState :=
  snd (Listen flakyBrokerEnv "ws://broker/listen" "token" 0).

(** ** Predicates used by the further properties *)

(** How a piece of [negotiate] treats the signaling stream, run from any
    state: if it returns from [negotiate], the last thing it did is an error
    report, and nothing before that closed the stream; if it goes on, nothing
    it did closed the stream. *)
Definition reporting (E : Env) {A} (m : Neg A) : Prop :=
  forall s,
    match m s with
    | (Return, s') =>
        exists pre r err,
          trace s' = (trace s ++ pre) ++ errorReport E (trace s ++ pre) r err /\
          ~ In EvConnClose pre
    | (_, s') =>
        exists evs, trace s' = trace s ++ evs /\ ~ In EvConnClose evs
    end.

(** A frame the listener acts on: it carries a candidate or an offer. *)
Definition carries_signal (msg : BrokerMessage) : bool :=
  negb (String.eqb (Candidate msg) "") ||
  match Offer msg with Some _ => true | None => false end.

(** The decode results [negotiate] acts on: errors and signal frames. *)
Definition acted_on (r : error + BrokerMessage) : bool :=
  match r with
  | inl _ => true
  | inr msg => carries_signal msg
  end.

(** A frame that carries both a candidate and an offer. *)
Definition candidateAndOffer : BrokerMessage :=
  mkBrokerMessage (Some testOffer) (Some [stunServer]) "" "" None "candidate:1".

(** The peers whose data-channel handler the listener registered, in the
    order of registration. *)
Definition registered (h : history) : list PeerId :=
  flat_map (fun ev => match ev with EvOnDataChannel p _ => [p] | _ => [] end) h.

(** A piece of [negotiate] that puts a peer on the closer list exactly when
    it registers the peer's data-channel handler. *)
Definition registering {A} (m : Neg A) : Prop :=
  forall s,
    exists evs,
      trace (snd (m s)) = trace s ++ evs /\
      connClosers (lst (snd (m s))) = connClosers (lst s) ++ registered evs.

(** The events of answering [offer] with servers [servers] for the new peer
    [p], in a cooperative environment, with [cs] in the candidate buffer. *)
Definition offerEvents (E : Env) (answer : SessionDescription) (data : bytes)
           (p : PeerId) (offer : SessionDescription) (servers : list ICEServer)
           (cs : list ICECandidateInit) : list event :=
  map EvDialICE (probed E servers) ++
  [EvNewPeerConnection servers None; EvOnConnectionStateChange p;
   EvProxyICECandidates p; EvOnDataChannel p (offerFrame offer servers);
   EvSetRemoteDescription p offer; EvCreateAnswer p;
   EvSetLocalDescription p answer; EvFlushCandidates p; EvConnWrite data] ++
  map (EvAddICECandidate p) cs.

Definition is_PeerClose (ev : event) : bool :=
  match ev with EvPeerClose _ => true | _ => false end.

(** An offer that asks for the TURN proxy. *)
Definition proxiedOffer : BrokerMessage :=
  mkBrokerMessage (Some testOffer) (Some [sentinelServer])
                  "wss://coder.example/turn" "" None "".

Definition is_RwWrite (ev : event) : bool :=
  match ev with EvRwWrite _ _ => true | _ => false end.

Definition is_RwRead (ev : event) : bool :=
  match ev with EvRwRead _ _ => true | _ => false end.

(** What the ping loop may do on channel [dc]: read into its one-byte
    buffer, or write one byte. *)
Definition ping_event (dc : DcId) (ev : event) : Prop :=
  ev = EvRwRead dc 1 \/ exists b, ev = EvRwWrite dc [b].

(** What a data-channel handler may do: act on its own channel, or dial
    the target. *)
Definition channel_event (dc : DcId) (ev : event) : Prop :=
  event_target ev = OnChannel dc \/ exists network addr, ev = EvNetDial network addr.

(** A read that fails with an error other than EOF, between two pings. *)
Definition noisyReads : list readResult :=
  [mkReadResult [x61] None;
   mkReadResult [] (Some (errors_New "short buffer"));
   mkReadResult [x62] None;
   mkReadResult [] (Some (Sentinel io_EOF));
   mkReadResult [x63] None].

Definition is_tick (sel : selectEvent) : bool :=
  match sel with TickerC => true | CtxDone _ => false end.

(** The error is one of the two the watcher retries on. *)
Definition retryable (err : error) : bool :=
  errors_Is err io_EOF || errors_Is err yamux_ErrKeepAliveTimeout.

(** The error is the end of the context. *)
Definition context_ended (err : error) : bool :=
  errors_Is err context_Canceled || errors_Is err context_DeadlineExceeded.

(** The peer rejects every candidate. *)
Definition pickyPeerEnv : Env :=
  {| turnProxyMagicUsername := turnProxyMagicUsername happyEnv;
     controlChannel := controlChannel happyEnv;
     getAddress := getAddress happyEnv;
     coder_NewHTTPError := coder_NewHTTPError happyEnv;
     json_Marshal_msg := json_Marshal_msg happyEnv;
     json_Marshal_resp := json_Marshal_resp happyEnv;
     url_Parse := url_Parse happyEnv;
     conn_Write := conn_Write happyEnv;
     DialICE := DialICE happyEnv;
     newPeerConnection := newPeerConnection happyEnv;
     rtc_ConnectionState := rtc_ConnectionState happyEnv;
     rtc_SetRemoteDescription := rtc_SetRemoteDescription happyEnv;
     rtc_CreateAnswer := rtc_CreateAnswer happyEnv;
     rtc_SetLocalDescription := rtc_SetLocalDescription happyEnv;
     rtc_LocalDescription := rtc_LocalDescription happyEnv;
     rtc_AddICECandidate := fun _ _ _ => Some (errors_New "malformed candidate");
     dc_Detach := dc_Detach happyEnv;
     rw_Write := rw_Write happyEnv;
     net_Dial := net_Dial happyEnv;
     websocket_Dial := websocket_Dial happyEnv;
     yamux_Server := yamux_Server happyEnv;
     session_Accept_error := session_Accept_error happyEnv;
     ws_Close := ws_Close happyEnv |}.

(** What one read on the control channel delivers before the end of the
    stream: a ping byte, or a failure. *)
Inductive pingInput : Type :=
| Ping (b : byte)
| ReadFailure (err : error).

Definition readOf (i : pingInput) : readResult :=
  match i with
  | Ping b => mkReadResult [b] None
  | ReadFailure err => mkReadResult [] (Some err)
  end.

(** What the listener is to do for it: echo a ping, only read on a failure. *)
Definition echoOf (dc : DcId) (i : pingInput) : list event :=
  match i with
  | Ping b => [EvRwRead dc 1; EvRwWrite dc [b]]
  | ReadFailure _ => [EvRwRead dc 1]
  end.

Definition survivable (i : pingInput) : Prop :=
  match i with
  | Ping _ => True
  | ReadFailure err => errors_Is err io_EOF = false
  end.

(** Every peer reports that it is connected. *)
Definition connectedEnv : Env :=
  testEnv (fun _ => None) None (inr testAnswer) PeerConnectionStateConnected None
          (fun _ => WsDialOk) (fun _ => None).

(** * Properties *)

(** ** Basic facts *)

Lemma pcs_eqb_eq (a b : PeerConnectionState) : pcs_eqb a b = true <-> a = b.
Proof. destruct a, b; simpl; split; intro H; try reflexivity; discriminate. Qed.

Lemma pcs_eqb_neq (a b : PeerConnectionState) : pcs_eqb a b = false <-> a <> b.
Proof.
  split.
  - intros H Heq. apply pcs_eqb_eq in Heq. congruence.
  - intros H. destruct (pcs_eqb a b) eqn:Hab; [|reflexivity].
    apply pcs_eqb_eq in Hab. contradiction.
Qed.

Lemma bind_Next {A B} (m : Neg A) (k : A -> Neg B) s a s' :
  m s = (Next a, s') -> bind m k s = k a s'.
Proof. intros H. unfold bind. rewrite H. reflexivity. Qed.

Lemma bind_Return {A B} (m : Neg A) (k : A -> Neg B) s s' :
  m s = (Return, s') -> bind m k s = (Return, s').
Proof. intros H. unfold bind. rewrite H. reflexivity. Qed.

Lemma bind_Continue {A B} (m : Neg A) (k : A -> Neg B) s s' :
  m s = (Continue, s') -> bind m k s = (Continue, s').
Proof. intros H. unfold bind. rewrite H. reflexivity. Qed.

Lemma string_app_assoc (a b c : string) : ((a ++ b) ++ c = a ++ b ++ c)%string.
Proof. induction a as [|ch a IH]; simpl; [reflexivity | now rewrite IH]. Qed.

(** The prefix line 200 formats, letter by letter. *)
Lemma dial_server_text (urls : list string) :
  ("dial server " ++ fmt_strings urls ++ ": "
   = "dial server [" ++ String.concat " " urls ++ "]: ")%string.
Proof. unfold fmt_strings. cbn. now rewrite string_app_assoc. Qed.

Lemma snoc2 {A} (h : list A) (a b : A) : (h ++ [a]) ++ [b] = h ++ [a; b].
Proof. rewrite <- app_assoc. reflexivity. Qed.

Lemma snoc_app {A} (h : list A) (a : A) (t : list A) :
  (h ++ [a]) ++ t = h ++ a :: t.
Proof. rewrite <- app_assoc. reflexivity. Qed.

Section NegotiateFacts.
Variable E : Env.

(** [closeError] always falls through to the [return] that follows it, and
    its events are those of [errorReport]. *)
Lemma closeError_run (err : error) (s : NegState) :
  exists s',
    closeError E err s = (Next tt, s') /\
    trace s' = trace s ++ errorReport E (trace s) (rtc s) err /\
    lst s' = lst s /\
    pendingCandidates s' = pendingCandidates s /\
    nextPeer s' = nextPeer s.
Proof.
  unfold closeError, errorReport, bind, call, get_rtc. simpl.
  destruct (rtc s) as [p|] eqn:Hr; simpl.
  - rewrite snoc2.
    destruct (pcs_eqb _ PeerConnectionStateConnected) eqn:Hc; simpl.
    + eexists. split; [reflexivity|]. simpl. auto.
    + unfold modify. simpl. eexists. split; [reflexivity|]. simpl.
      rewrite <- app_assoc. auto.
  - eexists. split; [reflexivity|]. simpl. rewrite snoc2. auto.
Qed.

(** [closeError(err); return]. *)
Lemma closeError_return (err : error) (s : NegState) :
  exists s',
    (closeError E err ;; return_ (A := unit)) s = (Return, s') /\
    trace s' = trace s ++ errorReport E (trace s) (rtc s) err /\
    lst s' = lst s.
Proof.
  destruct (closeError_run err s) as (s' & Hrun & Ht & Hl & _).
  exists s'. split; [|auto].
  rewrite (bind_Next _ _ _ _ _ Hrun). reflexivity.
Qed.

(** The shape of an error report: the frame, the close of the stream, and
    the close of the peer exactly when there is one and it is not
    connected. *)
Lemma errorReport_shape (h : history) (r : option PeerId) (err : error) :
  let d := marshal_or_nil (json_Marshal_msg E (errorMessage (Error err))) in
  exists closes,
    errorReport E h r err = [EvConnWrite d; EvConnClose] ++ closes /\
    (closes = [] \/ exists p, closes = [EvPeerClose p]) /\
    (forall p, In (EvPeerClose p) closes <->
               r = Some p /\
               rtc_ConnectionState E (h ++ [EvConnWrite d; EvConnClose]) p
               <> PeerConnectionStateConnected).
Proof.
  intros d. unfold errorReport. fold d.
  destruct r as [p|].
  - destruct (pcs_eqb _ PeerConnectionStateConnected) eqn:Hc.
    + exists []. split; [reflexivity|]. split; [auto|].
      intros q. split; [intros []|]. intros [Hq Hn]. inversion Hq; subst.
      apply pcs_eqb_eq in Hc. contradiction.
    + exists [EvPeerClose p]. split; [reflexivity|]. split; [eauto|].
      intros q. split.
      * intros [Hq|[]]. inversion Hq; subst. split; [reflexivity|].
        apply pcs_eqb_neq. exact Hc.
      * intros [Hq _]. inversion Hq; subst. left. reflexivity.
  - exists []. split; [reflexivity|]. split; [auto|].
    intros q. split; [intros []|]. intros [Hq _]. discriminate.
Qed.

Lemma validateServers_app (pre post : list ICEServer) (s : NegState) :
  validateServers E (pre ++ post) s =
  match validateServers E pre s with
  | (Next _, s') => validateServers E post s'
  | other => other
  end.
Proof.
  revert s. induction pre as [|server pre IH]; intros s;
    cbn [validateServers List.app].
  - reflexivity.
  - destruct (String.eqb (Username server) (turnProxyMagicUsername E)).
    + apply IH.
    + unfold bind at 1 3. unfold call at 1 2.
      destruct (DialICE E (trace s) server) as [e|].
      * match goal with
        | |- context [bind (closeError E ?err) _ ?st] =>
            destruct (closeError_return err st) as (s' & Hret & _)
        end.
        rewrite Hret. reflexivity.
      * apply IH.
Qed.

End NegotiateFacts.

(** ** Negotiation errors *)

(** C2. For each of the named negotiation errors (an offer without servers,
    an ICE server that cannot be reached, a failure to apply the offer, a
    failure to create the answer) the frame is abandoned with [return] after
    the listener wrote the frame whose only field set is [error], holding the
    text [err.Error()], and closed the signaling stream; the peer held in
    [rtc] at that moment is closed exactly when it exists and its connection
    state is not connected. *)
Theorem negotiation_error_reported
        (E : Env) (s : NegState) (msg : BrokerMessage)
        (err : error) (s_at : NegState) :
  negotiationError E s msg err s_at ->
  let d := marshal_or_nil
             (json_Marshal_msg E (mkBrokerMessage None None "" (Error err) None "")) in
  exists s' closes,
    onFrame E msg s = (Return, s') /\
    trace s' = trace s_at ++ [EvConnWrite d; EvConnClose] ++ closes /\
    (closes = [] \/ exists p, closes = [EvPeerClose p]) /\
    (forall p,
        In (EvPeerClose p) closes <->
        rtc s_at = Some p /\
        rtc_ConnectionState E (trace s_at ++ [EvConnWrite d; EvConnClose]) p
        <> PeerConnectionStateConnected).
Proof.
  intros H d.
  assert (Hgoal : exists s',
             onFrame E msg s = (Return, s') /\
             trace s' = trace s_at ++ errorReport E (trace s_at) (rtc s_at) err).
  { destruct H as [s1 offer Hc Ho Hs
                  | s1 s2 offer pre server post e Hc Ho Hs Hv Hn Hd
                  | s1 s2 offer servers p e Hc Ho Hs Hp Hr
                  | s1 s2 offer servers p e Hc Ho Hs Hp Hr Ha];
      unfold onFrame; rewrite (bind_Next _ _ _ _ _ Hc);
      unfold onOffer; rewrite Ho, Hs.
    - destruct (closeError_return E (errors_New "ICEServers must be provided") s1)
        as (s' & Hret & Ht & _).
      exists s'. split; [exact Hret | exact Ht].
    - unfold preparePeer. rewrite <- dial_server_text.
      set (bad := Errorf_w ("dial server " ++ fmt_strings (URLs server) ++ ": ") e).
      destruct (closeError_return E bad
                  (set_trace (trace s2 ++ [EvDialICE server]) s2))
        as (s' & Hret & Ht & _).
      exists s'. split; [|exact Ht].
      apply bind_Return. apply bind_Return.
      rewrite validateServers_app, Hv.
      cbn [validateServers]. unfold is_sentinel_server in Hn. rewrite Hn.
      unfold bind at 1. unfold call at 1. rewrite Hd. exact Hret.
    - destruct (closeError_return E (Errorf_w "apply offer: " e)
                  (set_trace (trace s2 ++ [EvSetRemoteDescription p offer]) s2))
        as (s' & Hret & Ht & _).
      exists s'. split; [|exact Ht].
      rewrite (bind_Next _ _ _ _ _ Hp).
      unfold answerOffer. unfold bind at 1. unfold call at 1. rewrite Hr.
      exact Hret.
    - destruct (closeError_return E (Errorf_w "create answer: " e)
                  (set_trace
                     (trace s2 ++ [EvSetRemoteDescription p offer; EvCreateAnswer p])
                     s2))
        as (s' & Hret & Ht & _).
      exists s'. split; [|exact Ht].
      rewrite (bind_Next _ _ _ _ _ Hp).
      unfold answerOffer. unfold bind at 1. unfold call at 1. rewrite Hr.
      unfold bind at 1. unfold call at 1. cbn [trace set_trace].
      rewrite Ha, snoc2. exact Hret. }
  destruct Hgoal as (s' & Hrun & Ht).
  destruct (errorReport_shape E (trace s_at) (rtc s_at) err)
    as (closes & Hshape & Hone & Hiff).
  exists s', closes. rewrite Ht, Hshape.
  split; [exact Hrun|]. split; [reflexivity|]. split; [exact Hone | exact Hiff].
Qed.

Lemma negotiation_error_reported_witness :
  (negotiationError deadIceEnv renegotiating deadOffer
     (Errorf_w "dial server [turn:10.255.255.1:3478 turn:10.255.255.2:3478]: "
               (errors_New "i/o timeout"))
     (set_trace [EvDialICE stunServer; EvDialICE deadServer] renegotiating)
   /\ exists s',
       onFrame deadIceEnv deadOffer renegotiating = (Return, s') /\
       trace s' =
         [EvDialICE stunServer; EvDialICE deadServer;
          EvConnWrite
            (encode ("error=dial server [turn:10.255.255.1:3478 "
                     ++ "turn:10.255.255.2:3478]: i/o timeout;"
                     ++ "answer=;candidate="));
          EvConnClose])
  /\
  (negotiationError badOfferEnv (initNeg testListener 0) plainOffer
     (Errorf_w "apply offer: " (errors_New "invalid SDP")) offerRejected
   /\ exists s',
       onFrame badOfferEnv plainOffer (initNeg testListener 0) = (Return, s') /\
       trace s' =
         trace offerRejected ++
         [EvConnWrite (encode "error=apply offer: invalid SDP;answer=;candidate=");
          EvConnClose; EvPeerClose 0]).
Proof.
  assert (H1 : negotiationError deadIceEnv renegotiating deadOffer
     (Errorf_w "dial server [turn:10.255.255.1:3478 turn:10.255.255.2:3478]: "
               (errors_New "i/o timeout"))
     (set_trace [EvDialICE stunServer; EvDialICE deadServer] renegotiating)).
  { exact (NE_ice_unreachable deadIceEnv renegotiating deadOffer
             renegotiating (set_trace [EvDialICE stunServer] renegotiating)
             testOffer [stunServer; sentinelServer] deadServer []
             (errors_New "i/o timeout")
             eq_refl eq_refl eq_refl eq_refl eq_refl eq_refl). }
  assert (H2 : negotiationError badOfferEnv (initNeg testListener 0) plainOffer
     (Errorf_w "apply offer: " (errors_New "invalid SDP")) offerRejected).
  { exact (NE_apply_offer badOfferEnv (initNeg testListener 0) plainOffer
             (initNeg testListener 0)
             (mkNegState (mkListener "ws://broker/listen" "token" None None [0])
                (Some 0) [] 1
                [EvDialICE stunServer;
                 EvNewPeerConnection [stunServer; sentinelServer] None;
                 EvOnConnectionStateChange 0; EvProxyICECandidates 0;
                 EvOnDataChannel 0 plainOffer])
             testOffer [stunServer; sentinelServer] 0 (errors_New "invalid SDP")
             eq_refl eq_refl eq_refl eq_refl eq_refl). }
  split.
  - split; [exact H1|].
    destruct (negotiation_error_reported _ _ _ _ _ H1)
      as (s' & closes & Hrun & Ht & Hone & Hiff).
    exists s'. split; [exact Hrun|].
    rewrite Ht. destruct Hone as [-> | [p ->]]; [reflexivity|].
    exfalso.
    destruct (proj1 (Hiff p) (or_introl eq_refl)) as [_ Hn].
    apply Hn. reflexivity.
  - split; [exact H2|].
    destruct (negotiation_error_reported _ _ _ _ _ H2)
      as (s' & closes & Hrun & Ht & Hone & Hiff).
    exists s'. split; [exact Hrun|].
    rewrite Ht.
    assert (Hin : In (EvPeerClose 0) closes).
    { apply Hiff. split; [reflexivity|]. cbn. discriminate. }
    destruct Hone as [-> | [p ->]]; [destruct Hin|].
    destruct Hin as [Hin|[]]. inversion Hin; subst. reflexivity.
Defined.

(** ** Validation of the ICE servers *)

Section ValidationFacts.
Variable E : Env.

Lemma probed_cons (server : ICEServer) (rest : list ICEServer) :
  probed E (server :: rest) =
  if is_sentinel_server E server then probed E rest
  else server :: probed E rest.
Proof.
  unfold probed. cbn [filter].
  destruct (is_sentinel_server E server); reflexivity.
Qed.

(** What the loop over the servers does, by cases on how it ends. *)
Lemma validateServers_spec (servers : list ICEServer) (s : NegState) :
  match validateServers E servers s with
  | (Next _, s') =>
      trace s' = trace s ++ map EvDialICE (probed E servers) /\
      rtc s' = rtc s /\ lst s' = lst s /\
      pendingCandidates s' = pendingCandidates s /\ nextPeer s' = nextPeer s
  | (Return, s') =>
      exists pre server post e,
        servers = pre ++ server :: post /\
        is_sentinel_server E server = false /\
        DialICE E (trace s ++ map EvDialICE (probed E pre)) server = Some e /\
        trace s' =
          (trace s ++ map EvDialICE (probed E pre) ++ [EvDialICE server]) ++
          errorReport E
            (trace s ++ map EvDialICE (probed E pre) ++ [EvDialICE server])
            (rtc s)
            (Errorf_w ("dial server " ++ fmt_strings (URLs server) ++ ": ") e)
  | (Continue, _) => False
  end.
Proof.
  revert s. induction servers as [|server rest IH]; intros s.
  - cbn. rewrite app_nil_r. auto.
  - cbn [validateServers]. rewrite probed_cons. unfold is_sentinel_server at 1.
    destruct (String.eqb (Username server) (turnProxyMagicUsername E)) eqn:Hs.
    + specialize (IH s).
      destruct (validateServers E rest s) as [[u| |] s']; auto.
      destruct IH as (pre & bad & post & e & Hl & Hn & Hd & Ht).
      exists (server :: pre), bad, post, e.
      assert (Hs' : is_sentinel_server E server = true) by exact Hs.
      rewrite !probed_cons, !Hs'. subst rest. auto.
    + unfold bind at 1. unfold call at 1.
      destruct (DialICE E (trace s) server) as [e|] eqn:Hd.
      * match goal with
        | |- context [bind (closeError E ?err) _ ?st] =>
            destruct (closeError_return E err st) as (s' & Hret & Ht & _)
        end.
        rewrite Hret.
        exists [], server, rest, e. cbn [List.app map probed filter].
        rewrite app_nil_r.
        cbn [trace set_trace rtc] in Ht.
        repeat split; auto.
      * specialize (IH (set_trace (trace s ++ [EvDialICE server]) s)).
        destruct (validateServers E rest _) as [[u| |] s']; auto.
        -- cbn [trace set_trace rtc lst pendingCandidates nextPeer] in IH.
           destruct IH as (Ht & Hrest). split; [|exact Hrest].
           rewrite Ht, <- app_assoc. reflexivity.
        -- cbn [trace set_trace rtc] in IH.
           destruct IH as (pre & bad & post & e & Hl & Hn & Hd' & Ht).
           exists (server :: pre), bad, post, e.
           assert (Hs' : is_sentinel_server E server = false) by exact Hs.
           rewrite !probed_cons, !Hs'.
           cbn [map List.app].
           rewrite !snoc_app in Hd', Ht.
           subst rest. repeat split; auto.
Qed.

End ValidationFacts.

(** C7. When an offer with servers is processed, validation probes the
    servers that do not carry the magic username, in order, and never a
    sentinel one.  If no probe fails, all of them are probed.  If a probe
    fails, the frame is abandoned after an error frame whose [error] field
    is ["dial server [<the server's URLs, separated by spaces>]: <cause>"]
    and the close of the stream; no peer is created and later servers are
    not probed. *)
Theorem sentinel_skipped_others_probed
        (E : Env) (offer : SessionDescription) (servers : list ICEServer)
        (url etext : string) (ans : option SessionDescription) (cand : string)
        (s : NegState) :
  let msg := mkBrokerMessage (Some offer) (Some servers) url etext ans cand in
  match validateServers E servers s with
  | (Next _, s') => trace s' = trace s ++ map EvDialICE (probed E servers)
  | (Return, s') =>
      onOffer E msg s = (Return, s') /\
      exists pre server post e closes,
        servers = pre ++ server :: post /\
        Username server <> turnProxyMagicUsername E /\
        DialICE E (trace s ++ map EvDialICE (probed E pre)) server = Some e /\
        trace s' =
          trace s ++ map EvDialICE (probed E pre) ++
          [EvDialICE server;
           EvConnWrite
             (marshal_or_nil
                (json_Marshal_msg E
                   (mkBrokerMessage
                      None None ""
                      ("dial server [" ++ String.concat " " (URLs server)
                                       ++ "]: " ++ Error e)
                      None "")));
           EvConnClose] ++ closes /\
        (closes = [] \/ exists p, closes = [EvPeerClose p])
  | (Continue, _) => False
  end.
Proof.
  intros msg.
  pose proof (validateServers_spec E servers s) as Hspec.
  destruct (validateServers E servers s) as [[u| |] s'] eqn:Hv.
  - apply Hspec.
  - exact Hspec.
  - split.
    + unfold onOffer, msg. cbn [Offer Servers]. unfold preparePeer.
      apply bind_Return. apply bind_Return. exact Hv.
    + destruct Hspec as (pre & server & post & e & Hl & Hn & Hd & Ht).
      match type of Ht with
      | _ = _ ++ errorReport E ?h ?r ?err =>
          destruct (errorReport_shape E h r err) as (closes & Hshape & Hone & _)
      end.
      exists pre, server, post, e, closes.
      split; [exact Hl|]. split.
      { unfold is_sentinel_server in Hn. apply String.eqb_neq. exact Hn. }
      split; [exact Hd|]. split; [|exact Hone].
      rewrite Ht, Hshape. unfold errorMessage. cbn [Error].
      rewrite dial_server_text.
      rewrite <- !app_assoc. cbn [List.app].
      rewrite !string_app_assoc. reflexivity.
Qed.

Lemma sentinel_skipped_others_probed_witness :
  exists s',
    onOffer deadIceEnv deadOffer (initNeg testListener 0) = (Return, s') /\
    trace s' =
      [EvDialICE stunServer; EvDialICE deadServer;
       EvConnWrite
         (encode ("error=dial server [turn:10.255.255.1:3478 "
                  ++ "turn:10.255.255.2:3478]: i/o timeout;"
                  ++ "answer=;candidate="));
       EvConnClose].
Proof.
  pose proof (sentinel_skipped_others_probed
                deadIceEnv testOffer [stunServer; sentinelServer; deadServer]
                "" "" None "" (initNeg testListener 0)) as H.
  cbv zeta in H.
  change (validateServers deadIceEnv [stunServer; sentinelServer; deadServer]
                          (initNeg testListener 0))
    with (@Return unit,
          mkNegState testListener None [] 0
            [EvDialICE stunServer; EvDialICE deadServer;
             EvConnWrite
               (encode ("error=dial server [turn:10.255.255.1:3478 "
                        ++ "turn:10.255.255.2:3478]: i/o timeout;"
                        ++ "answer=;candidate="));
             EvConnClose]) in H.
  cbv beta iota in H.
  destruct H as (Hrun & _).
  eexists. split; [exact Hrun | reflexivity].
Defined.

(** ** Candidates that arrive before the offer *)

Section CooperativeFacts.
Variable E : Env.
Variable answer : SessionDescription.
Variable data : bytes.
Hypothesis coop : cooperative E answer data.

Lemma validateServers_ok (servers : list ICEServer) (s : NegState) :
  validateServers E servers s =
  (Next tt, set_trace (trace s ++ map EvDialICE (probed E servers)) s).
Proof.
  revert s. induction servers as [|server rest IH]; intros s.
  - cbn. rewrite app_nil_r. destruct s; reflexivity.
  - cbn [validateServers]. rewrite probed_cons. unfold is_sentinel_server.
    destruct (String.eqb (Username server) (turnProxyMagicUsername E)).
    + apply IH.
    + unfold bind at 1. unfold call at 1.
      rewrite (coop_probe _ _ _ coop). rewrite IH.
      cbn [trace set_trace map]. rewrite snoc_app. reflexivity.
Qed.

Lemma addPending_ok (p : PeerId) (cs : list ICECandidateInit) (s : NegState) :
  addPending E p cs s =
  (Next tt, set_trace (trace s ++ map (EvAddICECandidate p) cs) s).
Proof.
  revert s. induction cs as [|c rest IH]; intros s.
  - cbn. rewrite app_nil_r. destruct s; reflexivity.
  - cbn [addPending]. unfold bind at 1. unfold call at 1.
    rewrite (coop_candidate _ _ _ coop). rewrite IH.
    cbn [trace set_trace map]. rewrite snoc_app. reflexivity.
Qed.

Lemma preparePeer_ok (msg : BrokerMessage) (servers : list ICEServer)
      (s : NegState) :
  TURNProxyURL msg = "" ->
  let p := nextPeer s in
  preparePeer E msg servers s =
  (Next p,
   mkNegState
     (mkListener (broker (lst s)) (turnProxyAuthToken (lst s))
                 (acceptError (lst s)) (ws (lst s))
                 (connClosers (lst s) ++ [p]))
     (Some p) (pendingCandidates s) (S p)
     (trace s ++ map EvDialICE (probed E servers) ++
      [EvNewPeerConnection servers None; EvOnConnectionStateChange p;
       EvProxyICECandidates p; EvOnDataChannel p msg])).
Proof.
  intros Hurl p. unfold preparePeer.
  rewrite (bind_Next _ _ _ _ _ (validateServers_ok servers s)).
  unfold makeTurnProxy. rewrite Hurl. cbn [String.eqb negb].
  unfold bind, ret, createPeer, bind, call, modify.
  cbn [trace set_trace].
  rewrite (coop_peer _ _ _ coop).
  cbn. rewrite <- !app_assoc. reflexivity.
Qed.

Lemma answerOffer_ok (p : PeerId) (offer : SessionDescription) (s : NegState) :
  answerOffer E p offer s =
  (Next tt,
   mkNegState (lst s) (rtc s) [] (nextPeer s)
     (trace s ++
      [EvSetRemoteDescription p offer; EvCreateAnswer p;
       EvSetLocalDescription p answer; EvFlushCandidates p; EvConnWrite data] ++
      map (EvAddICECandidate p) (pendingCandidates s))).
Proof.
  unfold answerOffer.
  unfold bind at 1. unfold call at 1. rewrite (coop_remote _ _ _ coop).
  unfold bind at 1. unfold call at 1. rewrite (coop_answer _ _ _ coop).
  unfold bind at 1. unfold call at 1. rewrite (coop_local _ _ _ coop).
  unfold bind at 1. unfold call at 1.
  unfold sendAnswer. unfold bind at 1. unfold ret at 1.
  rewrite (coop_marshal _ _ _ coop).
  unfold bind at 1. unfold call at 1. rewrite (coop_write _ _ _ coop).
  unfold bind at 1. unfold get_pending at 1.
  unfold bind at 1. rewrite addPending_ok.
  unfold modify. cbn. rewrite <- !app_assoc. reflexivity.
Qed.

(** Candidate frames that arrive while there is no peer are appended to
    [pendingCandidates]; nothing is written, closed or added. *)
Lemma candidates_buffered (cands : list string)
      (rest : list (error + BrokerMessage)) (s : NegState) :
  rtc s = None ->
  Forall (fun c => c <> "") cands ->
  negotiate_loop E (map (fun c => inr (candidateFrame c)) cands ++ rest) s =
  negotiate_loop E rest
    (set_pending (pendingCandidates s ++ map mkICECandidateInit cands) s).
Proof.
  intros Hr Hne. revert s Hr.
  induction Hne as [|c cands Hc Hne IH]; intros s Hr.
  - cbn. rewrite app_nil_r. destruct s; reflexivity.
  - cbn [map List.app negotiate_loop].
    unfold onFrame, onCandidate. cbn [Candidate candidateFrame].
    apply String.eqb_neq in Hc. rewrite Hc. cbn [negb].
    unfold bind, get_rtc. rewrite Hr. unfold modify, continue_.
    rewrite IH by exact Hr.
    cbn [pendingCandidates set_pending]. rewrite snoc_app.
    destruct s; reflexivity.
Qed.

End CooperativeFacts.

(** C1. Candidate frames that reach [negotiate] before any offer are kept in
    [pendingCandidates] and nothing is rejected: no frame is written and the
    stream stays open.  When the offer follows, and the environment lets
    every step succeed, the peer is built, the offer applied, the answer
    sent, and then every buffered candidate is added to the peer in arrival
    order; [negotiate] is left waiting for the next frame with an empty
    buffer. *)
Theorem candidates_before_offer_buffered
        (E : Env) (answer : SessionDescription) (data : bytes)
        (l : listener) (p : PeerId) (cands : list string)
        (offer : SessionDescription) (servers : list ICEServer) :
  cooperative E answer data ->
  Forall (fun c => c <> "") cands ->
  negotiate E l p (map (fun c => inr (candidateFrame c)) cands) =
    (Decoding, mkNegState l None (map mkICECandidateInit cands) p [])
  /\
  exists s',
    negotiate E l p
      (map (fun c => inr (candidateFrame c)) cands
           ++ [inr (offerFrame offer servers)]) = (Decoding, s') /\
    trace s' =
      map EvDialICE (probed E servers) ++
      [EvNewPeerConnection servers None; EvOnConnectionStateChange p;
       EvProxyICECandidates p; EvOnDataChannel p (offerFrame offer servers);
       EvSetRemoteDescription p offer; EvCreateAnswer p;
       EvSetLocalDescription p answer; EvFlushCandidates p; EvConnWrite data] ++
      map (fun c => EvAddICECandidate p (mkICECandidateInit c)) cands /\
    rtc s' = Some p /\
    pendingCandidates s' = [] /\
    connClosers (lst s') = connClosers l ++ [p].
Proof.
  intros coop Hne. split.
  - unfold negotiate.
    rewrite <- (app_nil_r (map _ cands)).
    rewrite (candidates_buffered E cands [] (initNeg l p) eq_refl Hne).
    reflexivity.
  - unfold negotiate.
    rewrite (candidates_buffered E cands _ (initNeg l p) eq_refl Hne).
    cbn [negotiate_loop]. unfold onFrame, onCandidate.
    cbn [Candidate offerFrame String.eqb negb].
    unfold bind at 1. unfold ret at 1.
    unfold onOffer.
    change (Offer (offerFrame offer servers)) with (Some offer).
    change (Servers (offerFrame offer servers)) with (Some servers).
    cbv beta iota.
    erewrite bind_Next;
      [| apply (preparePeer_ok E answer data coop); reflexivity].
    rewrite (answerOffer_ok E answer data coop).
    eexists. split; [reflexivity|].
    cbn. rewrite <- !app_assoc. rewrite map_map. cbn.
    repeat split; reflexivity.
Qed.

Lemma candidates_before_offer_buffered_witness :
  cooperative happyEnv testAnswer testAnswerData /\
  Forall (fun c => c <> "") ["candidate:1"; "candidate:2"] /\
  exists s',
    negotiate happyEnv testListener 0
      [inr (candidateFrame "candidate:1"); inr (candidateFrame "candidate:2");
       inr plainOffer] = (Decoding, s') /\
    rtc s' = Some 0 /\ pendingCandidates s' = [].
Proof.
  assert (Hcoop : cooperative happyEnv testAnswer testAnswerData)
    by (constructor; reflexivity).
  assert (Hne : Forall (fun c => c <> "") ["candidate:1"; "candidate:2"])
    by (repeat constructor; discriminate).
  split; [exact Hcoop|]. split; [exact Hne|].
  destruct (candidates_before_offer_buffered
              happyEnv testAnswer testAnswerData testListener 0
              ["candidate:1"; "candidate:2"] testOffer
              [stunServer; sentinelServer] Hcoop Hne)
    as [_ (s' & Hrun & _ & Hr & Hp & _)].
  exists s'. split; [exact Hrun|]. split; assumption.
Defined.

(** ** The control channel *)

Lemma echoLoop_pings (dc : DcId) (pings : list byte) (eof : error)
      (d : byte) (h : history) :
  errors_Is eof io_EOF = true ->
  echoLoop dc (pingReads pings eof) d h =
  (EchoReturned, h ++ pongs dc pings ++ [EvRwRead dc 1]).
Proof.
  intros Heof. revert d h. unfold pingReads, pongs.
  induction pings as [|b pings IH]; intros d h.
  - cbn. rewrite Heof. reflexivity.
  - cbn [map List.app echoLoop rd_data rd_err flat_map].
    rewrite IH. rewrite <- !app_assoc. reflexivity.
Qed.

(** C9. On a channel whose protocol is the control label the listener
    detaches the channel and loops on reads into a one-byte buffer; every
    byte the dialer writes is written back as one byte, in order, and when
    the read reports EOF the handler returns without any further write or
    close. *)
Theorem control_channel_echo
        (E : Env) (msg : BrokerMessage) (dc : DcId) (pings : list byte)
        (eof : error) (h : history) :
  dc_Detach E h dc = None ->
  errors_Is eof io_EOF = true ->
  controlOpen E dc (pingReads pings eof) h =
    (EchoReturned, h ++ [EvDetach dc] ++ pongs dc pings ++ [EvRwRead dc 1]) /\
  handle E msg dc (controlChannel E) (pingReads pings eof) h =
    h ++ [EvDetach dc] ++ pongs dc pings ++ [EvRwRead dc 1].
Proof.
  intros Hd Heof.
  assert (Hopen : controlOpen E dc (pingReads pings eof) h =
                  (EchoReturned,
                   h ++ [EvDetach dc] ++ pongs dc pings ++ [EvRwRead dc 1])).
  { unfold controlOpen. rewrite Hd.
    rewrite (echoLoop_pings dc pings eof _ _ Heof).
    rewrite <- app_assoc. reflexivity. }
  split; [exact Hopen|].
  unfold handle. rewrite String.eqb_refl, Hopen. reflexivity.
Qed.

Lemma control_channel_echo_witness :
  dc_Detach happyEnv [] 7 = None /\
  errors_Is (Sentinel io_EOF) io_EOF = true /\
  handle happyEnv emptyMessage 7 "control"
         (pingReads [x61; x62] (Sentinel io_EOF)) [] =
    [EvDetach 7; EvRwRead 7 1; EvRwWrite 7 [x61];
     EvRwRead 7 1; EvRwWrite 7 [x62]; EvRwRead 7 1].
Proof.
  split; [reflexivity|]. split; [reflexivity|].
  exact (proj2 (control_channel_echo happyEnv emptyMessage 7 [x61; x62]
                  (Sentinel io_EOF) [] eq_refl eq_refl)).
Defined.

(** ** Application channels *)

(** C5. On an application channel whose address parses and whose dial fails
    with an error of non-empty text, the handler dials once, writes one
    frame, the response with code ["dial_error"], the error text and, when
    the error is a [net.OpError], its [Net] and [Op], and, the write having
    succeeded, closes the channel; no byte is bridged. *)
Theorem dial_failure_reported
        (E : Env) (msg : BrokerMessage) (dc : DcId)
        (protocol network addr : string) (err : error) (d : bytes)
        (reads : list readResult) (h : history) :
  String.eqb protocol (controlChannel E) = false ->
  dc_Detach E h dc = None ->
  getAddress E msg protocol = inr (network, addr) ->
  net_Dial E (h ++ [EvDetach dc]) network addr = Some err ->
  Error err <> "" ->
  json_Marshal_resp E
    (mkDialChannelResponse
       "dial_error" (Error err)
       (match as_OpError err with Some (net, _) => net | None => "" end)
       (match as_OpError err with Some (_, op) => op | None => "" end)) = inr d ->
  rw_Write E (h ++ [EvDetach dc; EvNetDial network addr]) dc d = None ->
  handle E msg dc protocol reads h =
    h ++ [EvDetach dc; EvNetDial network addr; EvRwWrite dc d; EvDcClose dc].
Proof.
  intros Hp Hd Ha Hn Hne Hm Hw.
  unfold handle. rewrite Hp. unfold applicationOpen. rewrite Hd, Ha, Hn.
  assert (Hinit : dialResponse (Some err) =
                  mkDialChannelResponse
                    "dial_error" (Error err)
                    (match as_OpError err with Some (net, _) => net | None => "" end)
                    (match as_OpError err with Some (_, op) => op | None => "" end)).
  { unfold dialResponse. destruct (as_OpError err) as [[net op]|]; reflexivity. }
  rewrite Hinit. cbn [Err].
  apply String.eqb_neq in Hne. rewrite Hne. cbn [negb].
  unfold sendInitMessage. rewrite Hm. rewrite snoc2, Hw. cbn [Err].
  rewrite Hne. cbn [negb]. rewrite <- app_assoc. reflexivity.
Qed.

Lemma dial_failure_reported_witness :
  handle refusingEnv emptyMessage 7 "tcp:127.0.0.1:22" [] [] =
    [EvDetach 7; EvNetDial "tcp" "127.0.0.1:22";
     EvRwWrite 7
       (encode ("code=dial_error;"
                ++ "err=dial tcp 127.0.0.1:22: connect: connection refused;"
                ++ "net=tcp;op=dial"));
     EvDcClose 7].
Proof.
  assert (Hne : Error refused <> "") by (simpl; discriminate).
  exact (dial_failure_reported refusingEnv emptyMessage 7
           "tcp:127.0.0.1:22" "tcp" "127.0.0.1:22" refused
           (encode ("code=dial_error;"
                    ++ "err=dial tcp 127.0.0.1:22: connect: connection refused;"
                    ++ "net=tcp;op=dial"))
           [] [] eq_refl eq_refl eq_refl eq_refl Hne eq_refl eq_refl).
Defined.

(** C6. On an application channel whose address [getAddress] refuses, the
    handler answers on that channel and touches nothing else: after the
    detach every event acts on this channel (so there is no dial, and neither
    the peer nor the signaling stream nor another channel is closed), and the
    frame written is the response with code ["permission_error"] when the
    error is a policy error and ["bad_address_error"] otherwise. *)
Theorem address_error_stays_on_channel
        (E : Env) (msg : BrokerMessage) (dc : DcId) (protocol : string)
        (err : error) (reads : list readResult) (h : history) :
  String.eqb protocol (controlChannel E) = false ->
  dc_Detach E h dc = None ->
  getAddress E msg protocol = inl err ->
  exists evs,
    handle E msg dc protocol reads h = h ++ EvDetach dc :: evs /\
    Forall (fun ev => event_target ev = OnChannel dc) evs /\
    match json_Marshal_resp E
            (mkDialChannelResponse
               (if errors_As_policy err
                then "permission_error" else "bad_address_error")
               (Error err) "" "")
    with
    | inl _ => evs = [EvRwClose dc]
    | inr d => evs = [EvRwWrite dc d] \/ evs = [EvRwWrite dc d; EvDcClose dc]
    end.
Proof.
  intros Hp Hd Ha.
  unfold handle. rewrite Hp. unfold applicationOpen. rewrite Hd, Ha.
  unfold sendInitMessage, addressErrorResponse.
  unfold CodePermissionErr, CodeBadAddressErr.
  destruct (json_Marshal_resp E _) as [e|d].
  - exists [EvRwClose dc]. rewrite snoc_app.
    split; [reflexivity|]. split; [|reflexivity].
    repeat constructor.
  - destruct (rw_Write E _ dc d).
    + exists [EvRwWrite dc d]. rewrite snoc_app.
      split; [reflexivity|]. split; [repeat constructor | auto].
    + destruct (negb _).
      * exists [EvRwWrite dc d; EvDcClose dc]. rewrite snoc_app.
        split; [reflexivity|]. split; [repeat constructor | auto].
      * exists [EvRwWrite dc d]. rewrite snoc_app.
        split; [reflexivity|]. split; [repeat constructor | auto].
Qed.

Lemma address_error_stays_on_channel_witness :
  (exists evs,
      handle happyEnv emptyMessage 7 "tcp:10.0.0.1:22" [] [] = EvDetach 7 :: evs /\
      Forall (fun ev => event_target ev = OnChannel 7) evs /\
      (evs = [EvRwWrite 7
               (encode ("code=permission_error;"
                        ++ "err=address not permitted by policy;net=;op="))] \/
       evs = [EvRwWrite 7
               (encode ("code=permission_error;"
                        ++ "err=address not permitted by policy;net=;op="));
              EvDcClose 7]))
  /\
  (exists evs,
      handle happyEnv emptyMessage 7 "tcp:localhost" [] [] = EvDetach 7 :: evs /\
      Forall (fun ev => event_target ev = OnChannel 7) evs /\
      (evs = [EvRwWrite 7
               (encode "code=bad_address_error;err=missing port;net=;op=")] \/
       evs = [EvRwWrite 7
               (encode "code=bad_address_error;err=missing port;net=;op=");
              EvDcClose 7])).
Proof.
  split.
  - exact (address_error_stays_on_channel happyEnv emptyMessage 7
             "tcp:10.0.0.1:22" (PolicyErr "address not permitted by policy")
             [] [] eq_refl eq_refl eq_refl).
  - exact (address_error_stays_on_channel happyEnv emptyMessage 7
             "tcp:localhost" (errors_New "missing port")
             [] [] eq_refl eq_refl eq_refl).
Defined.

(** ** The closer list *)

Lemma grows_refl (s : NegState) : grows s s.
Proof. exists []. now rewrite app_nil_r. Qed.

Lemma grows_same_lst (s s' : NegState) : lst s' = lst s -> grows s s'.
Proof. intros H. exists []. now rewrite H, app_nil_r. Qed.

Lemma grows_trans (s1 s2 s3 : NegState) : grows s1 s2 -> grows s2 s3 -> grows s1 s3.
Proof.
  intros [a Ha] [b Hb]. exists (a ++ b). now rewrite Hb, Ha, app_assoc.
Qed.

Lemma growing_bind {A B} (m : Neg A) (k : A -> Neg B) :
  growing m -> (forall a, growing (k a)) -> growing (bind m k).
Proof.
  intros Hm Hk s. unfold bind. specialize (Hm s).
  destruct (m s) as [[a| |] s1]; cbn [snd] in *; try exact Hm.
  eapply grows_trans; [exact Hm | apply Hk].
Qed.

Lemma growing_ret {A} (a : A) : growing (ret a).
Proof. intros s. apply grows_same_lst. reflexivity. Qed.

Lemma growing_return {A} : growing (return_ (A := A)).
Proof. intros s. apply grows_same_lst. reflexivity. Qed.

Lemma growing_continue {A} : growing (continue_ (A := A)).
Proof. intros s. apply grows_same_lst. reflexivity. Qed.

Lemma growing_call {R} (ev : event) (oracle : history -> R) : growing (call ev oracle).
Proof. intros s. apply grows_same_lst. reflexivity. Qed.

Lemma growing_get_rtc : growing get_rtc.
Proof. intros s. apply grows_same_lst. reflexivity. Qed.

Lemma growing_get_pending : growing get_pending.
Proof. intros s. apply grows_same_lst. reflexivity. Qed.

Lemma growing_modify (f : NegState -> NegState) :
  (forall s, grows s (f s)) -> growing (modify f).
Proof. intros H s. apply H. Qed.

Lemma growing_pointwise {A} (m : NegState -> Neg A) :
  (forall s0, growing (m s0)) -> growing (fun s => m s s).
Proof. intros H s. apply H. Qed.

Section GrowingFacts.
Variable E : Env.

Lemma growing_closeError (err : error) : growing (closeError E err).
Proof.
  intros s. destruct (closeError_run E err s) as (s' & Hrun & _ & Hl & _).
  rewrite Hrun. cbn [snd]. exists []. now rewrite Hl, app_nil_r.
Qed.

Ltac growing_step :=
  first
    [ apply growing_closeError
    | apply growing_ret | apply growing_return | apply growing_continue
    | apply growing_call | apply growing_get_rtc | apply growing_get_pending
    | apply growing_bind; [|intros ?]
    | apply growing_modify; intros ?; apply grows_same_lst; reflexivity ].

Lemma growing_validateServers (servers : list ICEServer) :
  growing (validateServers E servers).
Proof.
  induction servers as [|server rest IH]; cbn [validateServers].
  - growing_step.
  - destruct (String.eqb _ _); [exact IH|].
    growing_step; [growing_step|].
    destruct a; [repeat growing_step | exact IH].
Qed.

Lemma growing_addPending (p : PeerId) (cs : list ICECandidateInit) :
  growing (addPending E p cs).
Proof.
  induction cs as [|c rest IH]; cbn [addPending].
  - growing_step.
  - growing_step; [growing_step|].
    destruct a; [repeat growing_step | exact IH].
Qed.

Lemma growing_onCandidate (msg : BrokerMessage) : growing (onCandidate E msg).
Proof.
  unfold onCandidate. destruct (negb _); [|growing_step].
  growing_step; [growing_step|].
  destruct a; repeat growing_step.
  destruct a; repeat growing_step.
Qed.

Lemma growing_makeTurnProxy (msg : BrokerMessage) : growing (makeTurnProxy E msg).
Proof.
  unfold makeTurnProxy. destruct (negb _); [|growing_step].
  destruct (url_Parse E _); [repeat growing_step|].
  intros st. apply grows_same_lst. reflexivity.
Qed.

Lemma growing_createPeer (servers : list ICEServer) (tp : option turnProxyDialer) :
  growing (createPeer E servers tp).
Proof.
  unfold createPeer. growing_step; [growing_step|].
  destruct a; [repeat growing_step|].
  intros st. apply grows_same_lst. reflexivity.
Qed.

Lemma growing_preparePeer (msg : BrokerMessage) (servers : list ICEServer) :
  growing (preparePeer E msg servers).
Proof.
  unfold preparePeer.
  growing_step; [apply growing_validateServers|].
  growing_step; [apply growing_makeTurnProxy|].
  growing_step; [apply growing_createPeer|].
  growing_step; [growing_step|].
  growing_step; [growing_step|].
  growing_step; [|repeat growing_step].
  apply growing_modify. intros s.
  exists [a1]. reflexivity.
Qed.

Lemma growing_sendAnswer (p : PeerId) : growing (sendAnswer E p).
Proof.
  unfold sendAnswer. growing_step; [intros st; apply grows_same_lst; reflexivity|].
  destruct (json_Marshal_msg E _); [repeat growing_step|].
  growing_step; [growing_step|].
  destruct a0; [repeat growing_step|].
  growing_step; [growing_step|].
  growing_step; [apply growing_addPending|].
  growing_step.
Qed.

Lemma growing_answerOffer (p : PeerId) (offer : SessionDescription) :
  growing (answerOffer E p offer).
Proof.
  unfold answerOffer. growing_step; [growing_step|].
  destruct a; [repeat growing_step|].
  growing_step; [growing_step|].
  destruct a; [repeat growing_step|].
  growing_step; [growing_step|].
  destruct a; [repeat growing_step|].
  growing_step; [growing_step|]. apply growing_sendAnswer.
Qed.

Lemma growing_onFrame (msg : BrokerMessage) : growing (onFrame E msg).
Proof.
  unfold onFrame. growing_step; [apply growing_onCandidate|].
  unfold onOffer. destruct (Offer msg); [|growing_step].
  destruct (Servers msg); [|repeat growing_step].
  growing_step; [apply growing_preparePeer | apply growing_answerOffer].
Qed.

Lemma grows_negotiate_loop (input : list (error + BrokerMessage)) (s : NegState) :
  grows s (snd (negotiate_loop E input s)).
Proof.
  revert s. induction input as [|[err|msg] rest IH]; intros s; cbn [negotiate_loop].
  - apply grows_refl.
  - cbn [snd].
    assert (H : growing (closeError E err ;; return_ (A := unit)))
      by repeat growing_step.
    apply H.
  - pose proof (growing_onFrame msg s) as H.
    destruct (onFrame E msg s) as [[u| |] s1]; cbn [snd] in *;
      try exact H; (eapply grows_trans; [exact H | apply IH]).
Qed.

End GrowingFacts.

(** C4, as the code has it.  The callback a peer registers for changes of
    its connection state closes the signaling stream unless the new state is
    connecting, and leaves the listener, its closer list included, as it is.
    During a negotiation the closer list is only ever extended, and [Close]
    closes every peer on it, in order, before it closes the websocket. *)
Theorem closer_list_only_grows (E : Env) :
  (forall p pcs s,
      lst (onConnectionStateChange p pcs s) = lst s /\
      trace (onConnectionStateChange p pcs s) =
        trace s ++
        (if pcs_eqb pcs PeerConnectionStateConnecting then [] else [EvConnClose]))
  /\
  (forall l fresh input,
      exists added,
        connClosers (lst (snd (negotiate E l fresh input))) =
        connClosers l ++ added)
  /\
  (forall l h,
      exists tail,
        snd (Close E l h) = h ++ map EvPeerClose (connClosers l) ++ tail).
Proof.
  split; [|split].
  - intros p pcs s. unfold onConnectionStateChange.
    destruct (pcs_eqb pcs PeerConnectionStateConnecting).
    + now rewrite app_nil_r.
    + split; reflexivity.
  - intros l fresh input. unfold negotiate.
    exact (grows_negotiate_loop E input (initNeg l fresh)).
  - intros l h. unfold Close. destruct (ws l) as [w|].
    + exists [EvWsClose w ""]. cbn [snd]. now rewrite app_assoc.
    + exists []. cbn [snd]. now rewrite app_nil_r.
Qed.

(** C4, as stated, fails: after a negotiation on [liveListener] created peer
    0, the change of its state to failed (or closed) leaves 0 on the closer
    list, and a later [Close] closes that peer again. *)
Lemma dead_peer_stays_on_closer_list :
  rtc negotiated = Some 0 /\
  connClosers (lst negotiated) = [0] /\
  In 0 (connClosers
          (lst (onConnectionStateChange 0 PeerConnectionStateFailed negotiated))) /\
  In 0 (connClosers
          (lst (onConnectionStateChange 0 PeerConnectionStateClosed negotiated))) /\
  snd (Close happyEnv
         (lst (onConnectionStateChange 0 PeerConnectionStateFailed negotiated)) [])
  = [EvPeerClose 0; EvWsClose 0 ""].
Proof.
  repeat split; try reflexivity; left; reflexivity.
Qed.

(** ** The terminal error and [Close] *)

Section TerminalFacts.
Variable E : Env.

Lemma receive_finished (k : SupState -> supStatus * SupState) (s : SupState) :
  (forall s1, fst (k s1) = Finished ->
              exists err, acceptError (sup_l (snd (k s1))) = Some err) ->
  fst (receive E k s) = Finished ->
  exists err, acceptError (sup_l (snd (receive E k s))) = Some err.
Proof.
  intros Hk. unfold receive.
  destruct (ch s) as [c|]; [|discriminate].
  destruct (session_Accept_error E (sup_trace s) c) as [err|]; [|discriminate].
  destruct (errors_Is err io_EOF || errors_Is err yamux_ErrKeepAliveTimeout).
  - apply Hk.
  - intros _. exists err. reflexivity.
Qed.

Lemma retry_finished (sels : list selectEvent) (s : SupState) :
  fst (retry E sels s) = Finished ->
  exists err, acceptError (sup_l (snd (retry E sels s))) = Some err.
Proof.
  revert s. induction sels as [|sel rest IH]; intros s; cbn [retry].
  - discriminate.
  - destruct (match sel with
              | TickerC => redial E s
              | CtxDone deadline => (Some (ctx_Err deadline), s)
              end) as [err s1].
    destruct (retryDone err); [|apply IH].
    destruct err as [e|].
    + intros _. exists e. reflexivity.
    + apply receive_finished. exact IH.
Qed.

End TerminalFacts.

(** C3, as the code has it.  When the watcher stops on an error it stores
    the error in [acceptError] and calls [Close]; whenever the watcher has
    finished, the field holds an error.  [Close] never reads that field: it
    returns what closing the broker websocket returns, after it closed every
    peer on the closer list. *)
Theorem close_returns_websocket_result (E : Env) :
  (forall err s,
      fst (storeAndClose E err s) = Finished /\
      acceptError (sup_l (snd (storeAndClose E err s))) = Some err)
  /\
  (forall sels s,
      fst (watcher E sels s) = Finished ->
      exists err, acceptError (sup_l (snd (watcher E sels s))) = Some err)
  /\
  (forall l e h, Close E (l_set_acceptError e l) h = Close E l h)
  /\
  (forall l h,
      fst (Close E l h) =
      match ws l with
      | Some w =>
          CloseReturned (ws_Close E (h ++ map EvPeerClose (connClosers l)) w)
      | None => ClosePanicked
      end).
Proof.
  split; [|split; [|split]].
  - intros err s. split; reflexivity.
  - intros sels s. unfold watcher. apply receive_finished.
    intros s1. apply retry_finished.
  - intros l e h. reflexivity.
  - intros l h. unfold Close. destruct (ws l); reflexivity.
Qed.

(** C3, as stated, fails: the watcher stored a terminal error (an accept
    error that is not retried; the cancellation of the context) and closed
    the listener; a later [Close] returns the websocket's complaint about a
    second close, not the stored error. *)
Lemma stored_error_not_returned :
  (acceptError (sup_l brokenSession) = Some (errors_New "session shutdown") /\
   fst (Close brokenSessionEnv (sup_l brokenSession) (sup_trace brokenSession))
   = CloseReturned
       (Some (errors_New "failed to close WebSocket: already wrote close")) /\
   fst (Close brokenSessionEnv (sup_l brokenSession) (sup_trace brokenSession))
   <> CloseReturned (acceptError (sup_l brokenSession)))
  /\
  (acceptError (sup_l cancelledSession) = Some (Sentinel context_Canceled) /\
   fst (Close flakyBrokerEnv (sup_l cancelledSession) (sup_trace cancelledSession))
   = CloseReturned
       (Some (errors_New "failed to close WebSocket: already wrote close")) /\
   fst (Close flakyBrokerEnv (sup_l cancelledSession) (sup_trace cancelledSession))
   <> CloseReturned (acceptError (sup_l cancelledSession))).
Proof. repeat split; try reflexivity; discriminate. Qed.

(** ** One websocket at a time *)

Lemma live_ws_snoc (h : history) (ev : event) :
  live_ws (h ++ [ev]) = live_step (live_ws h) ev.
Proof. unfold live_ws. rewrite fold_left_app. reflexivity. Qed.

Lemma earlier_snoc (pre h : history) (ev : event) :
  earlier pre (h ++ [ev]) -> earlier pre h \/ pre = h ++ [ev].
Proof.
  intros [suf Hsuf]. destruct suf as [|x suf] using rev_ind.
  - right. rewrite app_nil_r in Hsuf. congruence.
  - left. rewrite app_assoc in Hsuf. apply app_inj_tail in Hsuf.
    destruct Hsuf as [Hh _]. exists suf. exact Hh.
Qed.

Lemma one_live_ws_nil : one_live_ws [].
Proof.
  intros pre [suf Hsuf]. symmetry in Hsuf. apply app_eq_nil in Hsuf.
  destruct Hsuf as [-> _]. cbn. lia.
Qed.

Lemma one_live_ws_snoc (h : history) (ev : event) :
  one_live_ws h -> List.length (live_ws (h ++ [ev])) <= 1 ->
  one_live_ws (h ++ [ev]).
Proof.
  intros Hh Hev pre Hpre. apply earlier_snoc in Hpre.
  destruct Hpre as [Hpre | ->]; [apply Hh; exact Hpre | exact Hev].
Qed.

Lemma one_live_ws_now (h : history) : one_live_ws h -> List.length (live_ws h) <= 1.
Proof. intros H. apply H. exists []. now rewrite app_nil_r. Qed.

(** Any event but the opening of a websocket keeps the invariant. *)
Lemma stored_ok_quiet (stored : option WsId) (h : history) (ev : event) :
  (forall w, ev <> EvWsOpened w) ->
  stored_ok stored h -> stored_ok stored (h ++ [ev]).
Proof.
  intros Hev [Hone Hst].
  assert (Hsub : forall w, In w (live_ws (h ++ [ev])) -> In w (live_ws h)).
  { intros w. rewrite live_ws_snoc.
    destruct ev; cbn [live_step]; auto;
      try (exfalso; eapply Hev; reflexivity).
    intros Hin. apply filter_In in Hin. tauto. }
  split.
  - apply one_live_ws_snoc; [exact Hone|].
    rewrite live_ws_snoc. pose proof (one_live_ws_now h Hone) as Hlen.
    destruct ev; cbn [live_step]; try exact Hlen;
      try (exfalso; eapply Hev; reflexivity).
    etransitivity; [apply filter_length_le | exact Hlen].
  - intros w Hin. apply Hst, Hsub, Hin.
Qed.

Lemma stored_ok_quiet_many (stored : option WsId) (h : history) (evs : list event) :
  (forall ev w, In ev evs -> ev <> EvWsOpened w) ->
  stored_ok stored h -> stored_ok stored (h ++ evs).
Proof.
  revert h. induction evs as [|ev evs IH]; intros h Hev Hok.
  - now rewrite app_nil_r.
  - rewrite <- snoc_app. apply IH.
    + intros e w Hin. apply Hev. right. exact Hin.
    + apply stored_ok_quiet; [|exact Hok].
      intros w. apply Hev. left. reflexivity.
Qed.

(** After the stored websocket was closed, none is open. *)
Lemma stored_closed_none_live (stored : option WsId) (h : history) :
  stored_ok stored h ->
  live_ws
    (match stored with
     | Some old => h ++ [EvWsClose old "new connection inbound"]
     | None => h
     end) = [].
Proof.
  intros [_ Hst]. destruct stored as [old|].
  - rewrite live_ws_snoc. cbn [live_step].
    destruct (filter (fun x => negb (Nat.eqb x old)) (live_ws h))
      as [|w rest] eqn:Hf; [reflexivity|].
    assert (Hin : In w (filter (fun x => negb (Nat.eqb x old)) (live_ws h)))
      by (rewrite Hf; left; reflexivity).
    apply filter_In in Hin. destruct Hin as [Hin Hneq].
    apply Hst in Hin. inversion Hin; subst.
    rewrite Nat.eqb_refl in Hneq. discriminate.
  - destruct (live_ws h) as [|w rest] eqn:Hl; [reflexivity|].
    specialize (Hst w (or_introl eq_refl)). discriminate.
Qed.

(** Opening a websocket when none is open, and storing it. *)
Lemma stored_ok_open (stored : option WsId) (h : history) (w : WsId) :
  one_live_ws h -> live_ws h = [] ->
  stored_ok (Some w) (h ++ [EvWsOpened w]).
Proof.
  intros Hone Hnil.
  assert (Hlive : live_ws (h ++ [EvWsOpened w]) = [w])
    by (rewrite live_ws_snoc, Hnil; reflexivity).
  split.
  - apply one_live_ws_snoc; [exact Hone|]. rewrite Hlive. cbn. lia.
  - intros x. rewrite Hlive. intros [->|[]]. reflexivity.
Qed.

Section SessionFacts.
Variable E : Env.

Lemma session_ok_stored (s : SupState) :
  session_ok s <-> stored_ok (ws (sup_l s)) (sup_trace s).
Proof. reflexivity. Qed.

(** The events of [dial]: the close of the stored websocket, if any, comes
    first, then the dial, then the new websocket. *)
Lemma dial_events (s : SupState) :
  exists opened,
    sup_trace (snd (dial E s)) = sup_trace s ++ dialEvents s opened /\
    ws (sup_l (snd (dial E s))) =
      (if opened then Some (nextWs s) else ws (sup_l s)).
Proof.
  unfold dial, dialEvents.
  destruct (websocket_Dial E _ (broker (sup_l s))) as [|resp err].
  - exists true.
    destruct (yamux_Server E _ (nextWs s)); cbn [snd sup_trace sup_l ws l_set_ws];
      (split; [|reflexivity]);
      destruct (ws (sup_l s)); rewrite <- ?app_assoc; reflexivity.
  - exists false.
    destruct resp; cbn [snd sup_trace sup_l sup_set_trace];
      (split; [|reflexivity]);
      destruct (ws (sup_l s)); rewrite <- ?app_assoc; reflexivity.
Qed.

Lemma dial_ok (s : SupState) : session_ok s -> session_ok (snd (dial E s)).
Proof.
  intros Hses.
  assert (Hok : stored_ok (ws (sup_l s)) (sup_trace s)) by exact Hses.
  clear Hses. apply session_ok_stored.
  destruct (dial_events s) as (opened & Ht & Hw). rewrite Ht, Hw.
  unfold dialEvents.
  pose proof (stored_closed_none_live _ _ Hok) as Hnil.
  assert (Hok1 : stored_ok (ws (sup_l s))
                   (match ws (sup_l s) with
                    | Some old => sup_trace s ++ [EvWsClose old "new connection inbound"]
                    | None => sup_trace s
                    end)).
  { destruct (ws (sup_l s)); [|exact Hok].
    apply stored_ok_quiet; [discriminate | exact Hok]. }
  assert (Heq : forall tl,
             sup_trace s ++
             match ws (sup_l s) with
             | Some old => [EvWsClose old "new connection inbound"]
             | None => []
             end ++ tl =
             match ws (sup_l s) with
             | Some old => sup_trace s ++ [EvWsClose old "new connection inbound"]
             | None => sup_trace s
             end ++ tl).
  { intros tl. destruct (ws (sup_l s)); [now rewrite <- app_assoc | reflexivity]. }
  rewrite Heq.
  set (h1 := match ws (sup_l s) with
             | Some old => sup_trace s ++ [EvWsClose old "new connection inbound"]
             | None => sup_trace s
             end) in *.
  assert (Hok2 : stored_ok (ws (sup_l s)) (h1 ++ [EvWsDial (broker (sup_l s))]))
    by (apply stored_ok_quiet; [discriminate | exact Hok1]).
  destruct opened; [|exact Hok2].
  change (h1 ++ EvWsDial (broker (sup_l s))
             :: [EvWsOpened (nextWs s); EvYamuxServer (nextWs s)])
    with (h1 ++ [EvWsDial (broker (sup_l s))]
             ++ [EvWsOpened (nextWs s)] ++ [EvYamuxServer (nextWs s)]).
  rewrite !app_assoc.
  apply stored_ok_quiet; [discriminate|].
  apply (stored_ok_open (ws (sup_l s))); [apply Hok2|].
  rewrite live_ws_snoc. exact Hnil.
Qed.

Lemma Close_ok (l : listener) (h : history) :
  stored_ok (ws l) h -> stored_ok (ws l) (snd (Close E l h)).
Proof.
  intros Hok. unfold Close.
  assert (H1 : stored_ok (ws l) (h ++ map EvPeerClose (connClosers l))).
  { apply stored_ok_quiet_many; [|exact Hok].
    intros ev w Hin. apply in_map_iff in Hin. destruct Hin as (p & <- & _).
    discriminate. }
  destruct (ws l) as [w|] eqn:Hw; cbn [snd]; [|exact H1].
  apply stored_ok_quiet; [discriminate | exact H1].
Qed.

Lemma storeAndClose_ok (err : error) (s : SupState) :
  session_ok s -> session_ok (snd (storeAndClose E err s)).
Proof.
  intros Hok. apply session_ok_stored. unfold storeAndClose.
  cbn [snd sup_l sup_trace].
  apply (Close_ok (l_set_acceptError (Some err) (sup_l s))). exact Hok.
Qed.

Lemma redial_ok (s : SupState) : session_ok s -> session_ok (snd (redial E s)).
Proof.
  intros Hok. unfold redial. pose proof (dial_ok s Hok) as Hd.
  destruct (dial E s) as [[e|c] s1]; exact Hd.
Qed.

Lemma quiet_event_ok (ev : event) (s : SupState) :
  (forall w, ev <> EvWsOpened w) ->
  session_ok s -> session_ok (sup_set_trace (sup_trace s ++ [ev]) s).
Proof. intros Hev Hok. apply (stored_ok_quiet _ _ _ Hev Hok). Qed.

Lemma receive_ok (k : SupState -> supStatus * SupState) (s : SupState) :
  (forall s1, session_ok s1 -> session_ok (snd (k s1))) ->
  session_ok s -> session_ok (snd (receive E k s)).
Proof.
  intros Hk Hok. unfold receive.
  destruct (ch s) as [c|]; [|exact Hok].
  destruct (session_Accept_error E (sup_trace s) c) as [err|]; [|exact Hok].
  destruct (errors_Is err io_EOF || errors_Is err yamux_ErrKeepAliveTimeout).
  - apply Hk. apply quiet_event_ok; [discriminate | exact Hok].
  - apply storeAndClose_ok. exact Hok.
Qed.

Lemma retry_ok (sels : list selectEvent) (s : SupState) :
  session_ok s -> session_ok (snd (retry E sels s)).
Proof.
  revert s. induction sels as [|sel rest IH]; intros s Hok; cbn [retry].
  - exact Hok.
  - assert (Hstep : session_ok
                      (snd (match sel with
                            | TickerC => redial E s
                            | CtxDone deadline => (Some (ctx_Err deadline), s)
                            end))).
    { destruct sel; [apply redial_ok; exact Hok | exact Hok]. }
    destruct (match sel with
              | TickerC => redial E s
              | CtxDone deadline => (Some (ctx_Err deadline), s)
              end) as [err s1].
    cbn [snd] in Hstep.
    destruct (retryDone err); [|apply IH; exact Hstep].
    assert (Hstop : session_ok (sup_set_trace (sup_trace s1 ++ [EvTickerStop]) s1))
      by (apply quiet_event_ok; [discriminate | exact Hstep]).
    destruct err as [e|].
    + apply storeAndClose_ok. exact Hstop.
    + apply receive_ok; [exact IH | exact Hstop].
Qed.

Lemma runSession_ok (broker turnProxyAuthToken : string) (fresh : WsId)
      (sels : list selectEvent) :
  session_ok (snd (runSession E broker turnProxyAuthToken fresh sels)).
Proof.
  unfold runSession, Listen.
  set (s0 := mkSupState (mkListener broker turnProxyAuthToken None None [])
                        None fresh []).
  assert (H0 : session_ok s0).
  { split; [apply one_live_ws_nil | intros w []]. }
  pose proof (dial_ok s0 H0) as Hd.
  destruct (dial E s0) as [[e|c] s1]; cbn [snd] in *; [exact Hd|].
  unfold watcher. apply receive_ok; [intros s2; apply retry_ok | exact Hd].
Qed.

End SessionFacts.

(** C10. In every run of [Listen] and its watcher, at no time are two
    broker websockets open, and the one that may be open is the one stored
    in [l.ws].  Every call of [dial] first closes the stored websocket, if
    any, then dials the broker, and only then a new websocket exists and is
    stored. *)
Theorem at_most_one_live_websocket
        (E : Env) (broker turnProxyAuthToken : string) (fresh : WsId)
        (sels : list selectEvent) :
  one_live_ws
    (sup_trace (snd (runSession E broker turnProxyAuthToken fresh sels))) /\
  live_is_stored (snd (runSession E broker turnProxyAuthToken fresh sels)) /\
  (forall s,
      exists opened,
        sup_trace (snd (dial E s)) = sup_trace s ++ dialEvents s opened /\
        ws (sup_l (snd (dial E s))) =
          (if opened then Some (nextWs s) else ws (sup_l s))).
Proof.
  destruct (runSession_ok E broker turnProxyAuthToken fresh sels) as [H1 H2].
  split; [exact H1|]. split; [exact H2|]. apply dial_events.
Qed.

(** ** Redialing the broker *)

Section RetryFacts.
Variable E : Env.

Lemma count_dials_app (h evs : history) :
  count_dials (h ++ evs) = count_dials h + count_dials evs.
Proof. unfold count_dials. now rewrite filter_app, length_app. Qed.

Lemma count_dials_dialEvents (s : SupState) (opened : bool) :
  count_dials (dialEvents s opened) = 1.
Proof.
  unfold dialEvents. rewrite count_dials_app.
  destruct (ws (sup_l s)), opened; reflexivity.
Qed.

(** Every redial calls [websocket.Dial] exactly once and leaves the terminal
    error alone. *)
Lemma redial_counts (s : SupState) :
  count_dials (sup_trace (snd (redial E s))) = S (count_dials (sup_trace s)) /\
  acceptError (sup_l (snd (redial E s))) = acceptError (sup_l s).
Proof.
  destruct (dial_events E s) as (opened & Ht & _).
  assert (Ha : acceptError (sup_l (snd (dial E s))) = acceptError (sup_l s)).
  { unfold dial. destruct (websocket_Dial E _ _) as [|resp err].
    - destruct (yamux_Server E _ _); reflexivity.
    - destruct resp; reflexivity. }
  unfold redial. destruct (dial E s) as [[e|c] s1]; cbn [snd] in *;
    unfold sup_set_ch; cbn [sup_trace sup_l];
    rewrite Ht, count_dials_app, count_dials_dialEvents; split; [lia | exact Ha | lia | exact Ha].
Qed.



End RetryFacts.



(** * Further properties of listen.go *)

(** ** The signaling stream is closed only by an error report *)

Section ReportingFacts.
Variable E : Env.

Lemma reporting_bind {A B} (m : Neg A) (k : A -> Neg B) :
  reporting E m -> (forall a, reporting E (k a)) -> reporting E (bind m k).
Proof.
  intros Hm Hk s. unfold bind. specialize (Hm s).
  destruct (m s) as [[a| |] s1]; try exact Hm.
  destruct Hm as (evs & Ht & Hn). specialize (Hk a s1).
  destruct (k a s1) as [[b| |] s2].
  - destruct Hk as (evs2 & Ht2 & Hn2). exists (evs ++ evs2).
    rewrite Ht2, Ht, app_assoc. split; [reflexivity|].
    intros Hin. apply in_app_or in Hin. tauto.
  - destruct Hk as (evs2 & Ht2 & Hn2). exists (evs ++ evs2).
    rewrite Ht2, Ht, app_assoc. split; [reflexivity|].
    intros Hin. apply in_app_or in Hin. tauto.
  - destruct Hk as (pre & r & err & Ht2 & Hn2). exists (evs ++ pre), r, err.
    rewrite Ht2, Ht, !app_assoc. split; [reflexivity|].
    intros Hin. apply in_app_or in Hin. tauto.
Qed.

Lemma reporting_silent {A} (m : Neg A) :
  (forall s, fst (m s) <> Return /\ trace (snd (m s)) = trace s) ->
  reporting E m.
Proof.
  intros H s. destruct (H s) as [Hc Ht].
  destruct (m s) as [[a| |] s1]; cbn [fst snd] in *;
    try (exfalso; apply Hc; reflexivity);
    (exists []; rewrite app_nil_r; split; [exact Ht | intros []]).
Qed.

Lemma reporting_ret {A} (a : A) : reporting E (ret a).
Proof. apply reporting_silent. intros s. split; [discriminate | reflexivity]. Qed.

Lemma reporting_continue {A} : reporting E (continue_ (A := A)).
Proof. apply reporting_silent. intros s. split; [discriminate | reflexivity]. Qed.

Lemma reporting_get_rtc : reporting E get_rtc.
Proof. apply reporting_silent. intros s. split; [discriminate | reflexivity]. Qed.

Lemma reporting_get_pending : reporting E get_pending.
Proof. apply reporting_silent. intros s. split; [discriminate | reflexivity]. Qed.

Lemma reporting_modify (f : NegState -> NegState) :
  (forall s, trace (f s) = trace s) -> reporting E (modify f).
Proof.
  intros H. apply reporting_silent. intros s. split; [discriminate | apply H].
Qed.

Lemma reporting_call {R} (ev : event) (oracle : history -> R) :
  ev <> EvConnClose -> reporting E (call ev oracle).
Proof.
  intros Hev s. cbn. exists [ev]. split; [reflexivity|].
  intros [Hin|[]]. congruence.
Qed.

Lemma reporting_closeError_return {A} (err : error) :
  reporting E (closeError E err ;; return_ (A := A)).
Proof.
  intros s. destruct (closeError_run E err s) as (s' & Hrun & Ht & _).
  rewrite (bind_Next _ _ _ _ _ Hrun). unfold return_.
  exists [], (rtc s), err. rewrite app_nil_r.
  split; [exact Ht | intros []].
Qed.

Ltac reporting_step :=
  first
    [ apply reporting_closeError_return
    | apply reporting_ret | apply reporting_continue
    | apply reporting_get_rtc | apply reporting_get_pending
    | apply reporting_call; discriminate
    | apply reporting_modify; intros ?; reflexivity
    | apply reporting_bind; [|intros ?] ].

Lemma reporting_validateServers (servers : list ICEServer) :
  reporting E (validateServers E servers).
Proof.
  induction servers as [|server rest IH]; cbn [validateServers].
  - reporting_step.
  - destruct (String.eqb _ _); [exact IH|].
    reporting_step; [reporting_step|].
    destruct a; [reporting_step | exact IH].
Qed.

Lemma reporting_addPending (p : PeerId) (cs : list ICECandidateInit) :
  reporting E (addPending E p cs).
Proof.
  induction cs as [|c rest IH]; cbn [addPending].
  - reporting_step.
  - reporting_step; [reporting_step|].
    destruct a; [reporting_step | exact IH].
Qed.

Lemma reporting_onCandidate (msg : BrokerMessage) : reporting E (onCandidate E msg).
Proof.
  unfold onCandidate. destruct (negb _); [|reporting_step].
  reporting_step; [reporting_step|].
  destruct a; repeat reporting_step.
  destruct a; repeat reporting_step.
Qed.

Lemma reporting_makeTurnProxy (msg : BrokerMessage) :
  reporting E (makeTurnProxy E msg).
Proof.
  unfold makeTurnProxy. destruct (negb _); [|reporting_step].
  destruct (url_Parse E _); [reporting_step|].
  apply reporting_silent. intros st. split; [cbn; discriminate | reflexivity].
Qed.

Lemma reporting_createPeer (servers : list ICEServer) (tp : option turnProxyDialer) :
  reporting E (createPeer E servers tp).
Proof.
  unfold createPeer. reporting_step; [reporting_step|].
  destruct a; [repeat reporting_step|].
  apply reporting_silent. intros st. split; [cbn; discriminate | reflexivity].
Qed.

Lemma reporting_preparePeer (msg : BrokerMessage) (servers : list ICEServer) :
  reporting E (preparePeer E msg servers).
Proof.
  unfold preparePeer.
  reporting_step; [apply reporting_validateServers|].
  reporting_step; [apply reporting_makeTurnProxy|].
  reporting_step; [apply reporting_createPeer|].
  repeat reporting_step.
Qed.

Lemma reporting_sendAnswer (p : PeerId) : reporting E (sendAnswer E p).
Proof.
  unfold sendAnswer. reporting_step.
  { apply reporting_silent. intros st. split; [cbn; discriminate | reflexivity]. }
  destruct (json_Marshal_msg E _); [reporting_step|].
  reporting_step; [reporting_step|].
  destruct a0; [reporting_step|].
  reporting_step; [reporting_step|].
  reporting_step; [apply reporting_addPending|].
  reporting_step.
Qed.

Lemma reporting_answerOffer (p : PeerId) (offer : SessionDescription) :
  reporting E (answerOffer E p offer).
Proof.
  unfold answerOffer. reporting_step; [reporting_step|].
  destruct a; [reporting_step|].
  reporting_step; [reporting_step|].
  destruct a; [reporting_step|].
  reporting_step; [reporting_step|].
  destruct a; [reporting_step|].
  reporting_step; [reporting_step|]. apply reporting_sendAnswer.
Qed.

Lemma reporting_onFrame (msg : BrokerMessage) : reporting E (onFrame E msg).
Proof.
  unfold onFrame. reporting_step; [apply reporting_onCandidate|].
  unfold onOffer. destruct (Offer msg); [|reporting_step].
  destruct (Servers msg); [|reporting_step].
  reporting_step; [apply reporting_preparePeer | apply reporting_answerOffer].
Qed.

Lemma negotiate_loop_reporting (input : list (error + BrokerMessage)) (s : NegState) :
  match negotiate_loop E input s with
  | (Returned, s') =>
      exists pre r err,
        trace s' = (trace s ++ pre) ++ errorReport E (trace s ++ pre) r err /\
        ~ In EvConnClose pre
  | (Decoding, s') =>
      exists evs, trace s' = trace s ++ evs /\ ~ In EvConnClose evs
  end.
Proof.
  revert s. induction input as [|[err|msg] rest IH]; intros s; cbn [negotiate_loop].
  - exists []. rewrite app_nil_r. split; [reflexivity | intros []].
  - destruct (closeError_return E err s) as (s1 & Hrun & Ht & _).
    rewrite Hrun. cbn [snd]. exists [], (rtc s), err. rewrite app_nil_r.
    split; [exact Ht | intros []].
  - pose proof (reporting_onFrame msg s) as H.
    destruct (onFrame E msg s) as [[u| |] s1]; try exact H;
      destruct H as (evs & Ht & Hn); specialize (IH s1);
      (destruct (negotiate_loop E rest s1) as [[|] s2];
       [ destruct IH as (evs2 & Ht2 & Hn2); exists (evs ++ evs2);
         rewrite Ht2, Ht, app_assoc; split; [reflexivity|];
         intros Hin; apply in_app_or in Hin; tauto
       | destruct IH as (pre & r & e & Ht2 & Hn2); exists (evs ++ pre), r, e;
         rewrite Ht2, Ht, !app_assoc; split; [reflexivity|];
         intros Hin; apply in_app_or in Hin; tauto ]).
Qed.

End ReportingFacts.

(** X1. The body of [negotiate] never returns silently, and it closes the
    signaling stream nowhere but in its last report.  The trace is that of
    the calls the body itself makes: whatever the frames and the environment,
    when the body has returned, its last calls were the write of a frame
    whose only field set is [error], [conn.Close], and at most the close of
    one peer, and before that it never called [conn.Close]; while it is still
    decoding it has not called [conn.Close].  The one other place that closes
    the stream is the callback the body registers for each peer, which runs
    outside the body whenever the peer's state changes: it closes the stream
    on every state but connecting. *)
Theorem stream_closed_only_by_error_report
        (E : Env) (l : listener) (fresh : PeerId)
        (input : list (error + BrokerMessage)) :
  match negotiate E l fresh input with
  | (Returned, s') =>
      exists pre err closes,
        trace s' =
          pre ++
          [EvConnWrite
             (marshal_or_nil
                (json_Marshal_msg E
                   (mkBrokerMessage None None "" (Error err) None "")));
           EvConnClose] ++ closes /\
        ~ In EvConnClose pre /\
        (closes = [] \/ exists p, closes = [EvPeerClose p])
  | (Decoding, s') => ~ In EvConnClose (trace s')
  end
  /\
  (forall p pcs s,
      trace (onConnectionStateChange p pcs s) =
      trace s ++
      match pcs with
      | PeerConnectionStateConnecting => []
      | _ => [EvConnClose]
      end).
Proof.
  split.
  - unfold negotiate.
    pose proof (negotiate_loop_reporting E input (initNeg l fresh)) as H.
    destruct (negotiate_loop E input (initNeg l fresh)) as [[|] s'].
    + destruct H as (evs & Ht & Hn). rewrite Ht. exact Hn.
    + destruct H as (pre & r & err & Ht & Hn). cbn [trace initNeg List.app] in Ht.
      destruct (errorReport_shape E pre r err) as (closes & Hshape & Hone & _).
      exists pre, err, closes. rewrite Ht, Hshape. auto.
  - intros p pcs s. unfold onConnectionStateChange.
    destruct pcs; cbn; rewrite ?app_nil_r; reflexivity.
Qed.

Lemma stream_closed_only_by_error_report_witness :
  exists s',
    negotiate deadIceEnv testListener 0
              [inr (candidateFrame "candidate:1"); inr deadOffer;
               inr plainOffer] = (Returned, s') /\
    trace s' =
      [EvDialICE stunServer; EvDialICE deadServer;
       EvConnWrite
         (encode ("error=dial server [turn:10.255.255.1:3478 "
                  ++ "turn:10.255.255.2:3478]: i/o timeout;"
                  ++ "answer=;candidate="));
       EvConnClose] /\
    exists pre err closes,
      trace s' =
        pre ++
        [EvConnWrite
           (marshal_or_nil
              (json_Marshal_msg deadIceEnv
                 (mkBrokerMessage None None "" (Error err) None "")));
         EvConnClose] ++ closes /\
      ~ In EvConnClose pre /\
      (closes = [] \/ exists p, closes = [EvPeerClose p]).
Proof.
  pose proof (proj1 (stream_closed_only_by_error_report
                       deadIceEnv testListener 0
                       [inr (candidateFrame "candidate:1"); inr deadOffer;
                        inr plainOffer])) as H.
  change (negotiate deadIceEnv testListener 0
                    [inr (candidateFrame "candidate:1"); inr deadOffer;
                     inr plainOffer])
    with (Returned,
          mkNegState testListener None [mkICECandidateInit "candidate:1"] 0
            [EvDialICE stunServer; EvDialICE deadServer;
             EvConnWrite
               (encode ("error=dial server [turn:10.255.255.1:3478 "
                        ++ "turn:10.255.255.2:3478]: i/o timeout;"
                        ++ "answer=;candidate="));
             EvConnClose]) in H.
  cbv beta iota in H.
  eexists. split; [reflexivity|]. split; [reflexivity | exact H].
Defined.

(** ** Candidates after the offer, and frames that carry no signal *)

Section TrickleFacts.
Variable E : Env.
Variable answer : SessionDescription.
Variable data : bytes.
Hypothesis coop : cooperative E answer data.

(** Candidate frames that arrive while peer [p] exists go straight to it. *)
Lemma candidates_direct (p : PeerId) (cands : list string)
      (rest : list (error + BrokerMessage)) (s : NegState) :
  rtc s = Some p ->
  Forall (fun c => c <> "") cands ->
  negotiate_loop E (map (fun c => inr (candidateFrame c)) cands ++ rest) s =
  negotiate_loop E rest
    (set_trace
       (trace s ++ map (fun c => EvAddICECandidate p (mkICECandidateInit c)) cands)
       s).
Proof.
  intros Hr Hne. revert s Hr.
  induction Hne as [|c cands Hc Hne IH]; intros s Hr.
  - cbn. rewrite app_nil_r. destruct s; reflexivity.
  - cbn [map List.app negotiate_loop].
    unfold onFrame, onCandidate. cbn [Candidate candidateFrame].
    apply String.eqb_neq in Hc. rewrite Hc. cbn [negb].
    unfold bind at 1. unfold bind at 1. unfold get_rtc at 1. rewrite Hr.
    unfold bind at 1. unfold call at 1.
    rewrite (coop_candidate _ _ _ coop). unfold ret at 1.
    unfold onOffer.
    change (Offer (candidateFrame c)) with (@None SessionDescription).
    cbv beta iota. unfold ret at 1.
    rewrite IH by exact Hr.
    cbn [trace set_trace]. rewrite snoc_app. reflexivity.
Qed.

End TrickleFacts.

(** X2. With an environment that lets every call succeed, the candidates
    that arrive before the offer and those that arrive after it are all
    added to the peer, in the order they arrived: the early ones after the
    answer was written, the late ones each as its frame is decoded, and
    nothing is left in the buffer. *)
Theorem candidates_around_offer_all_added
        (E : Env) (answer : SessionDescription) (data : bytes)
        (l : listener) (p : PeerId) (early late : list string)
        (offer : SessionDescription) (servers : list ICEServer) :
  cooperative E answer data ->
  Forall (fun c => c <> "") early ->
  Forall (fun c => c <> "") late ->
  exists s',
    negotiate E l p
      (map (fun c => inr (candidateFrame c)) early
           ++ inr (offerFrame offer servers)
           :: map (fun c => inr (candidateFrame c)) late) = (Decoding, s') /\
    trace s' =
      map EvDialICE (probed E servers) ++
      [EvNewPeerConnection servers None; EvOnConnectionStateChange p;
       EvProxyICECandidates p; EvOnDataChannel p (offerFrame offer servers);
       EvSetRemoteDescription p offer; EvCreateAnswer p;
       EvSetLocalDescription p answer; EvFlushCandidates p; EvConnWrite data] ++
      map (fun c => EvAddICECandidate p (mkICECandidateInit c)) (early ++ late) /\
    rtc s' = Some p /\
    pendingCandidates s' = [].
Proof.
  intros coop Hearly Hlate. unfold negotiate.
  rewrite (candidates_buffered E early _ (initNeg l p) eq_refl Hearly).
  cbn [negotiate_loop]. unfold onFrame, onCandidate.
  cbn [Candidate offerFrame String.eqb negb].
  unfold bind at 1. unfold ret at 1.
  unfold onOffer.
  change (Offer (offerFrame offer servers)) with (Some offer).
  change (Servers (offerFrame offer servers)) with (Some servers).
  cbv beta iota.
  erewrite bind_Next;
    [| apply (preparePeer_ok E answer data coop); reflexivity].
  rewrite (answerOffer_ok E answer data coop).
  rewrite <- (app_nil_r (map _ late)).
  rewrite (candidates_direct E answer data coop p late []);
    [| reflexivity | exact Hlate].
  eexists. split; [reflexivity|].
  cbn. rewrite <- ?app_assoc. rewrite map_map, map_app. cbn.
  rewrite <- ?app_assoc. repeat split; reflexivity.
Qed.

Lemma candidates_around_offer_all_added_witness :
  cooperative happyEnv testAnswer testAnswerData /\
  exists s',
    negotiate happyEnv testListener 0
      [inr (candidateFrame "candidate:1"); inr plainOffer;
       inr (candidateFrame "candidate:2")] = (Decoding, s') /\
    rtc s' = Some 0 /\ pendingCandidates s' = [].
Proof.
  assert (Hcoop : cooperative happyEnv testAnswer testAnswerData)
    by (constructor; reflexivity).
  split; [exact Hcoop|].
  destruct (candidates_around_offer_all_added
              happyEnv testAnswer testAnswerData testListener 0
              ["candidate:1"] ["candidate:2"] testOffer
              [stunServer; sentinelServer] Hcoop)
    as (s' & Hrun & _ & Hr & Hp);
    try (repeat constructor; discriminate).
  exists s'. split; [exact Hrun|]. split; assumption.
Defined.

(** X3. The listener acts on a frame only through its candidate and its
    offer: frames that carry neither (an answer, an error, an empty frame)
    change nothing and write nothing, wherever they stand in the stream.  In
    particular an error frame from the dialer does not end the
    negotiation. *)
Theorem frames_without_signal_ignored
        (E : Env) (input : list (error + BrokerMessage)) (s : NegState) :
  negotiate_loop E input s = negotiate_loop E (filter acted_on input) s.
Proof.
  revert s. induction input as [|[err|msg] rest IH]; intros s.
  - reflexivity.
  - reflexivity.
  - cbn [filter acted_on]. unfold carries_signal.
    destruct (negb (String.eqb (Candidate msg) "")) eqn:Hc.
    + cbn [orb negotiate_loop].
      destruct (onFrame E msg s) as [[u| |] s1]; try reflexivity; apply IH.
    + destruct (Offer msg) as [offer|] eqn:Ho.
      * cbn [orb negotiate_loop].
        destruct (onFrame E msg s) as [[u| |] s1]; try reflexivity; apply IH.
      * cbn [orb negotiate_loop].
        unfold onFrame, onCandidate, onOffer. rewrite Hc, Ho. cbn. apply IH.
Qed.

(** X4. While no peer exists, a frame that carries a candidate is buffered
    and the rest of the frame is skipped by the [continue]: an offer in the
    same frame is never processed, so no peer is built and no answer is
    written for it. *)
Theorem offer_beside_early_candidate_skipped
        (E : Env) (msg : BrokerMessage)
        (rest : list (error + BrokerMessage)) (s : NegState) :
  rtc s = None ->
  Candidate msg <> "" ->
  negotiate_loop E (inr msg :: rest) s =
  negotiate_loop E rest
    (set_pending
       (pendingCandidates s ++ [mkICECandidateInit (Candidate msg)]) s).
Proof.
  intros Hr Hc. cbn [negotiate_loop]. unfold onFrame, onCandidate.
  apply String.eqb_neq in Hc. rewrite Hc. cbn [negb].
  unfold bind, get_rtc. rewrite Hr. reflexivity.
Qed.

Lemma offer_beside_early_candidate_skipped_witness :
  rtc (initNeg testListener 0) = None /\
  Candidate candidateAndOffer <> "" /\
  negotiate happyEnv testListener 0 [inr candidateAndOffer] =
    (Decoding,
     mkNegState testListener None [mkICECandidateInit "candidate:1"] 0 []).
Proof.
  assert (Hc : Candidate candidateAndOffer <> "") by (cbn; discriminate).
  split; [reflexivity|]. split; [exact Hc|].
  exact (offer_beside_early_candidate_skipped happyEnv candidateAndOffer []
           (initNeg testListener 0) eq_refl Hc).
Defined.

(** ** The closer list holds exactly the registered peers *)

Lemma registered_app (h1 h2 : history) :
  registered (h1 ++ h2) = registered h1 ++ registered h2.
Proof. unfold registered. apply flat_map_app. Qed.

Lemma registering_bind {A B} (m : Neg A) (k : A -> Neg B) :
  registering m -> (forall a, registering (k a)) -> registering (bind m k).
Proof.
  intros Hm Hk s. unfold bind. specialize (Hm s).
  destruct (m s) as [[a| |] s1]; cbn [snd] in *; try exact Hm.
  destruct Hm as (evs & Ht & Hc). destruct (Hk a s1) as (evs2 & Ht2 & Hc2).
  exists (evs ++ evs2).
  rewrite Ht2, Ht, Hc2, Hc, registered_app, !app_assoc. auto.
Qed.

Lemma registering_silent {A} (m : Neg A) :
  (forall s, trace (snd (m s)) = trace s /\ lst (snd (m s)) = lst s) ->
  registering m.
Proof.
  intros H s. destruct (H s) as [Ht Hl]. exists [].
  rewrite Ht, Hl, !app_nil_r. auto.
Qed.

Lemma registering_call {R} (ev : event) (oracle : history -> R) :
  registered [ev] = [] -> registering (call ev oracle).
Proof.
  intros Hev s. exists [ev]. cbn [snd call trace set_trace lst].
  rewrite Hev, app_nil_r. auto.
Qed.

Section RegisteringFacts.
Variable E : Env.

Lemma registering_closeError (err : error) : registering (closeError E err).
Proof.
  intros s. destruct (closeError_run E err s) as (s' & Hrun & Ht & Hl & _).
  rewrite Hrun. cbn [snd]. exists (errorReport E (trace s) (rtc s) err).
  rewrite Ht, Hl. split; [reflexivity|].
  unfold errorReport. destruct (rtc s) as [p|]; [|now rewrite app_nil_r].
  destruct (pcs_eqb _ _); now rewrite app_nil_r.
Qed.

Ltac registering_step :=
  first
    [ apply registering_closeError
    | apply registering_call; reflexivity
    | apply registering_silent; intros ?; split; reflexivity
    | apply registering_bind; [|intros ?] ].

Lemma registering_validateServers (servers : list ICEServer) :
  registering (validateServers E servers).
Proof.
  induction servers as [|server rest IH]; cbn [validateServers].
  - registering_step.
  - destruct (String.eqb _ _); [exact IH|].
    registering_step; [registering_step|].
    destruct a; [repeat registering_step | exact IH].
Qed.

Lemma registering_addPending (p : PeerId) (cs : list ICECandidateInit) :
  registering (addPending E p cs).
Proof.
  induction cs as [|c rest IH]; cbn [addPending].
  - registering_step.
  - registering_step; [registering_step|].
    destruct a; [repeat registering_step | exact IH].
Qed.

Lemma registering_onCandidate (msg : BrokerMessage) :
  registering (onCandidate E msg).
Proof.
  unfold onCandidate. destruct (negb _); [|registering_step].
  registering_step; [registering_step|].
  destruct a; repeat registering_step.
  destruct a; repeat registering_step.
Qed.

Lemma registering_makeTurnProxy (msg : BrokerMessage) :
  registering (makeTurnProxy E msg).
Proof.
  unfold makeTurnProxy. destruct (negb _); [|registering_step].
  destruct (url_Parse E _); repeat registering_step.
Qed.

Lemma registering_createPeer (servers : list ICEServer)
      (tp : option turnProxyDialer) :
  registering (createPeer E servers tp).
Proof.
  unfold createPeer. registering_step; [registering_step|].
  destruct a; repeat registering_step.
Qed.

(** Lines 221-231 for peer [p]: the one place where the list changes. *)
Lemma registering_registration (p : PeerId) (msg : BrokerMessage) :
  registering
    (call (EvOnConnectionStateChange p) (fun _ => tt) ;;
     call (EvProxyICECandidates p) (fun _ => tt) ;;
     modify (fun s => set_connClosers (connClosers (lst s) ++ [p]) s) ;;
     call (EvOnDataChannel p msg) (fun _ => tt) ;;
     ret p).
Proof.
  intros s.
  exists [EvOnConnectionStateChange p; EvProxyICECandidates p;
          EvOnDataChannel p msg].
  cbn. rewrite <- !app_assoc. split; reflexivity.
Qed.

Lemma registering_preparePeer (msg : BrokerMessage) (servers : list ICEServer) :
  registering (preparePeer E msg servers).
Proof.
  unfold preparePeer.
  registering_step; [apply registering_validateServers|].
  registering_step; [apply registering_makeTurnProxy|].
  registering_step; [apply registering_createPeer|].
  apply registering_registration.
Qed.

Lemma registering_sendAnswer (p : PeerId) : registering (sendAnswer E p).
Proof.
  unfold sendAnswer. registering_step; [registering_step|].
  destruct (json_Marshal_msg E _); [repeat registering_step|].
  registering_step; [registering_step|].
  destruct a0; [repeat registering_step|].
  registering_step; [registering_step|].
  registering_step; [apply registering_addPending|].
  registering_step.
Qed.

Lemma registering_answerOffer (p : PeerId) (offer : SessionDescription) :
  registering (answerOffer E p offer).
Proof.
  unfold answerOffer. registering_step; [registering_step|].
  destruct a; [repeat registering_step|].
  registering_step; [registering_step|].
  destruct a; [repeat registering_step|].
  registering_step; [registering_step|].
  destruct a; [repeat registering_step|].
  registering_step; [registering_step|]. apply registering_sendAnswer.
Qed.

Lemma registering_onFrame (msg : BrokerMessage) : registering (onFrame E msg).
Proof.
  unfold onFrame. registering_step; [apply registering_onCandidate|].
  unfold onOffer. destruct (Offer msg); [|registering_step].
  destruct (Servers msg); [|repeat registering_step].
  registering_step; [apply registering_preparePeer | apply registering_answerOffer].
Qed.

Lemma negotiate_loop_registering (input : list (error + BrokerMessage))
      (s : NegState) :
  exists evs,
    trace (snd (negotiate_loop E input s)) = trace s ++ evs /\
    connClosers (lst (snd (negotiate_loop E input s))) =
      connClosers (lst s) ++ registered evs.
Proof.
  revert s. induction input as [|[err|msg] rest IH]; intros s; cbn [negotiate_loop].
  - exists []. cbn. rewrite !app_nil_r. auto.
  - cbn [snd].
    assert (H : registering (closeError E err ;; return_ (A := unit)))
      by repeat registering_step.
    apply H.
  - pose proof (registering_onFrame msg s) as H.
    destruct (onFrame E msg s) as [[u| |] s1]; cbn [snd] in *; try exact H;
      destruct H as (evs & Ht & Hc); destruct (IH s1) as (evs2 & Ht2 & Hc2);
      exists (evs ++ evs2);
      rewrite Ht2, Ht, Hc2, Hc, registered_app, !app_assoc; auto.
Qed.

End RegisteringFacts.

(** X5. After any negotiation, whatever the frames and the environment, the
    peers the negotiation put on the listener's closer list are exactly the
    peers whose data-channel handler it registered, once each and in that
    order; a [Close] of the listener then closes the peers that were on the
    list before, followed by each of these. *)
Theorem closer_list_is_registered_peers
        (E : Env) (l : listener) (fresh : PeerId)
        (input : list (error + BrokerMessage)) (h : history) :
  connClosers (lst (snd (negotiate E l fresh input))) =
    connClosers l ++ registered (trace (snd (negotiate E l fresh input))) /\
  exists tail,
    snd (Close E (lst (snd (negotiate E l fresh input))) h) =
      h ++ map EvPeerClose (connClosers l)
        ++ map EvPeerClose (registered (trace (snd (negotiate E l fresh input))))
        ++ tail.
Proof.
  unfold negotiate.
  destruct (negotiate_loop_registering E input (initNeg l fresh))
    as (evs & Ht & Hc).
  cbn [trace initNeg List.app lst] in Ht, Hc.
  rewrite Ht. split; [exact Hc|].
  unfold Close. rewrite Hc, map_app.
  destruct (ws _) as [w|]; cbn [snd].
  - exists [EvWsClose w ""]. now rewrite <- ?app_assoc.
  - exists []. now rewrite ?app_nil_r, <- ?app_assoc.
Qed.

(** ** Repeated offers and the TURN proxy *)

Section OfferFacts.
Variable E : Env.
Variable answer : SessionDescription.
Variable data : bytes.
Hypothesis coop : cooperative E answer data.

(** One offer frame in a cooperative environment, from any state. *)
Lemma offer_step (offer : SessionDescription) (servers : list ICEServer)
      (s : NegState) :
  onFrame E (offerFrame offer servers) s =
  (Next tt,
   mkNegState
     (mkListener (broker (lst s)) (turnProxyAuthToken (lst s))
                 (acceptError (lst s)) (ws (lst s))
                 (connClosers (lst s) ++ [nextPeer s]))
     (Some (nextPeer s)) [] (S (nextPeer s))
     (trace s ++
      offerEvents E answer data (nextPeer s) offer servers (pendingCandidates s))).
Proof.
  unfold onFrame, onCandidate. cbn [Candidate offerFrame String.eqb negb].
  unfold bind at 1. unfold ret at 1. unfold onOffer.
  change (Offer (offerFrame offer servers)) with (Some offer).
  change (Servers (offerFrame offer servers)) with (Some servers).
  cbv beta iota.
  erewrite bind_Next;
    [| apply (preparePeer_ok E answer data coop); reflexivity].
  rewrite (answerOffer_ok E answer data coop).
  unfold offerEvents. cbn. rewrite <- ?app_assoc. reflexivity.
Qed.

Lemma offerEvents_close_no_peer (p : PeerId) (offer : SessionDescription)
      (servers : list ICEServer) (cs : list ICECandidateInit) :
  existsb is_PeerClose (offerEvents E answer data p offer servers cs) = false.
Proof.
  unfold offerEvents. rewrite !existsb_app. cbn.
  assert (H1 : existsb is_PeerClose (map EvDialICE (probed E servers)) = false).
  { induction (probed E servers) as [|x xs IH]; [reflexivity | exact IH]. }
  assert (H2 : existsb is_PeerClose (map (EvAddICECandidate p) cs) = false).
  { induction cs as [|x xs IH]; [reflexivity | exact IH]. }
  rewrite H1, H2. reflexivity.
Qed.

Lemma offers_loop (offers : list (SessionDescription * list ICEServer))
      (s : NegState) :
  exists s' evs,
    negotiate_loop E (map (fun o => inr (offerFrame (fst o) (snd o))) offers) s
      = (Decoding, s') /\
    trace s' = trace s ++ evs /\
    existsb is_PeerClose evs = false /\
    connClosers (lst s') =
      connClosers (lst s) ++ seq (nextPeer s) (List.length offers) /\
    nextPeer s' = nextPeer s + List.length offers /\
    rtc s' = match offers with
             | [] => rtc s
             | _ => Some (nextPeer s + List.length offers - 1)
             end.
Proof.
  revert s. induction offers as [|[offer servers] rest IH]; intros s.
  - exists s, []. cbn. rewrite !app_nil_r, Nat.add_0_r. repeat split.
  - cbn [map negotiate_loop fst snd]. rewrite offer_step.
    match goal with
    | |- context [negotiate_loop E _ ?st] => destruct (IH st)
        as (s' & evs & Hrun & Ht & Hn & Hc & Hp & Hr)
    end.
    cbn [trace lst connClosers nextPeer rtc] in Ht, Hc, Hp, Hr.
    exists s',
      (offerEvents E answer data (nextPeer s) offer servers (pendingCandidates s)
                   ++ evs).
    split; [exact Hrun|].
    split; [rewrite Ht, app_assoc; reflexivity|].
    split; [rewrite existsb_app, offerEvents_close_no_peer; exact Hn|].
    split; [rewrite Hc, <- app_assoc; reflexivity|].
    split; [rewrite Hp; cbn [List.length]; lia|].
    rewrite Hr. cbn [List.length]. destruct rest; cbn [List.length]; f_equal; lia.
Qed.

End OfferFacts.

(** X6. Every offer on a stream builds a new peer: after [n] offers, each
    answered successfully, the closer list has grown by [n] peers, [rtc]
    holds the last of them, and no peer was closed; the peers of the earlier
    offers are only replaced in [rtc], they stay open and on the list until
    the listener is closed. *)
Theorem every_offer_builds_a_new_peer
        (E : Env) (answer : SessionDescription) (data : bytes)
        (l : listener) (fresh : PeerId)
        (offers : list (SessionDescription * list ICEServer)) :
  cooperative E answer data ->
  exists s',
    negotiate E l fresh
      (map (fun o => inr (offerFrame (fst o) (snd o))) offers) = (Decoding, s') /\
    connClosers (lst s') = connClosers l ++ seq fresh (List.length offers) /\
    rtc s' = match offers with
             | [] => None
             | _ => Some (fresh + List.length offers - 1)
             end /\
    existsb is_PeerClose (trace s') = false.
Proof.
  intros coop. unfold negotiate.
  destruct (offers_loop E answer data coop offers (initNeg l fresh))
    as (s' & evs & Hrun & Ht & Hn & Hc & _ & Hr).
  exists s'. cbn [trace initNeg List.app lst nextPeer rtc] in Ht, Hc, Hr.
  rewrite Ht. auto.
Qed.

Lemma every_offer_builds_a_new_peer_witness :
  cooperative happyEnv testAnswer testAnswerData /\
  exists s',
    negotiate happyEnv testListener 0 [inr plainOffer; inr plainOffer]
    = (Decoding, s') /\
    connClosers (lst s') = [0; 1] /\ rtc s' = Some 1 /\
    existsb is_PeerClose (trace s') = false.
Proof.
  assert (Hcoop : cooperative happyEnv testAnswer testAnswerData)
    by (constructor; reflexivity).
  split; [exact Hcoop|].
  exact (every_offer_builds_a_new_peer happyEnv testAnswer testAnswerData
           testListener 0
           [(testOffer, [stunServer; sentinelServer]);
            (testOffer, [stunServer; sentinelServer])] Hcoop).
Defined.

(** X7. An offer that names a TURN proxy URL gets a peer whose proxy dialer
    is built from the parsed URL and the auth token the listener was given
    in [Listen]; without a URL the peer has no proxy dialer.  If the URL does
    not parse, the negotiation ends with the error
    ["parse turn proxy url: <cause>"] after the servers were probed, and no
    peer is created. *)
Theorem turn_proxy_dialer_carries_listener_token
        (E : Env) (answer : SessionDescription) (data : bytes)
        (msg : BrokerMessage) (servers : list ICEServer) (s : NegState) :
  cooperative E answer data ->
  TURNProxyURL msg <> "" ->
  match url_Parse E (TURNProxyURL msg) with
  | inr u =>
      exists s',
        preparePeer E msg servers s = (Next (nextPeer s), s') /\
        trace s' =
          trace s ++ map EvDialICE (probed E servers) ++
          [EvNewPeerConnection
             servers (Some (mkTurnProxyDialer u (turnProxyAuthToken (lst s))));
           EvOnConnectionStateChange (nextPeer s);
           EvProxyICECandidates (nextPeer s);
           EvOnDataChannel (nextPeer s) msg]
  | inl e =>
      exists s',
        preparePeer E msg servers s = (Return, s') /\
        trace s' =
          (trace s ++ map EvDialICE (probed E servers)) ++
          errorReport E (trace s ++ map EvDialICE (probed E servers)) (rtc s)
                      (Errorf_w "parse turn proxy url: " e) /\
        nextPeer s' = nextPeer s
  end.
Proof.
  intros coop Hurl. unfold preparePeer.
  rewrite (bind_Next _ _ _ _ _ (validateServers_ok E answer data coop servers s)).
  unfold makeTurnProxy. apply String.eqb_neq in Hurl. rewrite Hurl. cbn [negb].
  destruct (url_Parse E (TURNProxyURL msg)) as [e|u].
  - destruct (closeError_run E (Errorf_w "parse turn proxy url: " e)
                (set_trace (trace s ++ map EvDialICE (probed E servers)) s))
      as (s' & Hrun & Ht & _ & _ & Hp).
    exists s'. split; [|split; [exact Ht | exact Hp]].
    apply bind_Return. rewrite (bind_Next _ _ _ _ _ Hrun). reflexivity.
  - eexists. split.
    + unfold bind, ret, createPeer, bind, call, modify.
      cbn [trace set_trace]. rewrite (coop_peer _ _ _ coop). reflexivity.
    + cbn. rewrite <- ?app_assoc. reflexivity.
Qed.

Lemma turn_proxy_dialer_carries_listener_token_witness :
  cooperative happyEnv testAnswer testAnswerData /\
  TURNProxyURL proxiedOffer <> "" /\
  exists s',
    preparePeer happyEnv proxiedOffer [sentinelServer] (initNeg testListener 0)
    = (Next 0, s') /\
    trace s' =
      [EvNewPeerConnection
         [sentinelServer]
         (Some (mkTurnProxyDialer "wss://coder.example/turn" "token"));
       EvOnConnectionStateChange 0; EvProxyICECandidates 0;
       EvOnDataChannel 0 proxiedOffer].
Proof.
  assert (Hcoop : cooperative happyEnv testAnswer testAnswerData)
    by (constructor; reflexivity).
  assert (Hurl : TURNProxyURL proxiedOffer <> "") by (cbn; discriminate).
  split; [exact Hcoop|]. split; [exact Hurl|].
  exact (turn_proxy_dialer_carries_listener_token
           happyEnv testAnswer testAnswerData proxiedOffer [sentinelServer]
           (initNeg testListener 0) Hcoop Hurl).
Defined.

(** ** Data channels, in general *)

Lemma string_app_nonempty (a b : string) : b <> "" -> (a ++ b)%string <> "".
Proof.
  intros Hb. destruct a as [|ch a]; cbn; [exact Hb | discriminate].
Qed.

(** The text of a [net.OpError] is never empty: it contains [": "]. *)
Lemma OpError_text (op net addr : string) (inner : error) :
  Error (net_OpError op net addr inner) <> "".
Proof.
  cbn [Error].
  apply string_app_nonempty. apply string_app_nonempty.
  apply string_app_nonempty. discriminate.
Qed.

Lemma echoLoop_events (dc : DcId) (reads : list readResult) (d : byte) (h : history) :
  exists evs,
    snd (echoLoop dc reads d h) = h ++ evs /\
    Forall (ping_event dc) evs /\
    List.length (filter is_RwWrite evs) < List.length (filter is_RwRead evs) /\
    List.length (filter is_RwRead evs) <= S (List.length reads).
Proof.
  revert d h. induction reads as [|r rest IH]; intros d h; cbn [echoLoop].
  - exists [EvRwRead dc 1]. cbn. repeat split; try lia.
    repeat constructor.
  - destruct (rd_err r) as [err|].
    + destruct (errors_Is err io_EOF).
      * exists [EvRwRead dc 1]. cbn. repeat split; try lia.
        repeat constructor.
      * destruct (IH (match rd_data r with b :: _ => b | [] => d end)
                     (h ++ [EvRwRead dc 1])) as (evs & Ht & Hf & Hw & Hr).
        exists (EvRwRead dc 1 :: evs). rewrite Ht, snoc_app.
        cbn. repeat split; try lia.
        constructor; [left; reflexivity | exact Hf].
    + destruct (IH (match rd_data r with b :: _ => b | [] => d end)
                   ((h ++ [EvRwRead dc 1]) ++
                    [EvRwWrite dc [match rd_data r with b :: _ => b | [] => d end]]))
        as (evs & Ht & Hf & Hw & Hr).
      exists (EvRwRead dc 1
                :: EvRwWrite dc [match rd_data r with b :: _ => b | [] => d end]
                :: evs).
      rewrite Ht, !snoc_app. cbn. repeat split; try lia.
      constructor; [left; reflexivity|].
      constructor; [right; eexists; reflexivity | exact Hf].
Qed.

(** X8. Whatever the reads deliver on the control channel (data, errors,
    EOF, in any order), the ping loop only ever reads into its one-byte
    buffer and writes single bytes; it has always written less often than it
    has read, and it reads at most once more than there are results. *)
Theorem ping_loop_writes_single_bytes
        (E : Env) (dc : DcId) (reads : list readResult) (h : history) :
  exists evs,
    snd (controlOpen E dc reads h) = h ++ EvDetach dc :: evs /\
    Forall (ping_event dc) evs /\
    List.length (filter is_RwWrite evs) <= List.length (filter is_RwRead evs) /\
    List.length (filter is_RwRead evs) <= S (List.length reads).
Proof.
  unfold controlOpen. destruct (dc_Detach E h dc).
  - exists []. cbn. repeat split; try lia. constructor.
  - destruct (echoLoop_events dc reads x00 (h ++ [EvDetach dc]))
      as (evs & Ht & Hf & Hw & Hr).
    exists evs. rewrite Ht, snoc_app. repeat split; try assumption. lia.
Qed.

(** X9. In the ping loop a read that fails with an error other than EOF is
    skipped, with no echo and without ending the loop, every ping is echoed,
    and the loop returns at the first read whose error is EOF, whatever that
    read delivered: for any sequence of pings and such failures followed by
    an EOF, the calls are one read per item, one one-byte write per ping, in
    order, and the read that met EOF; the reads that follow are never
    consumed. *)
Theorem ping_loop_stops_at_first_eof
        (dc : DcId) (items : list pingInput) (data : bytes) (eof : error)
        (after : list readResult) (d : byte) (h : history) :
  Forall survivable items ->
  errors_Is eof io_EOF = true ->
  echoLoop dc (map readOf items ++ mkReadResult data (Some eof) :: after) d h =
  (EchoReturned, h ++ flat_map (echoOf dc) items ++ [EvRwRead dc 1]).
Proof.
  intros Hs Heof. revert d h.
  induction Hs as [|i items Hi Hs IH]; intros d h.
  - cbn. rewrite Heof. reflexivity.
  - destruct i as [b|err]; cbn [map List.app readOf echoLoop rd_data rd_err
                                 flat_map echoOf].
    + rewrite IH. rewrite <- !app_assoc. reflexivity.
    + cbn [survivable] in Hi. rewrite Hi, IH.
      rewrite <- !app_assoc. reflexivity.
Qed.

Lemma ping_loop_stops_at_first_eof_witness :
  echoLoop 7 noisyReads x00 [] =
  (EchoReturned,
   [EvRwRead 7 1; EvRwWrite 7 [x61]; EvRwRead 7 1;
    EvRwRead 7 1; EvRwWrite 7 [x62]; EvRwRead 7 1]).
Proof.
  assert (Hs : Forall survivable
                      [Ping x61; ReadFailure (errors_New "short buffer"); Ping x62])
    by (repeat constructor).
  exact (ping_loop_stops_at_first_eof 7 _ [] (Sentinel io_EOF)
           [mkReadResult [x63] None] x00 [] Hs eq_refl).
Defined.

(** X10. When the address parses and the dial succeeds, the handler writes
    the response with every field empty as the channel's first frame and then
    goes on to the bridge whether or not that write succeeded: between the
    dial and the bridge it makes that one write and closes nothing.  It
    starts one goroutine, which copies from the target to the channel and
    then closes the data channel; the handler itself copies from the channel
    to the target and, when that copy ends, closes the wrapped channel and
    then the target connection. *)
Theorem dial_success_bridges
        (E : Env) (msg : BrokerMessage) (dc : DcId)
        (protocol network addr : string) (d : bytes)
        (reads : list readResult) (h : history) :
  String.eqb protocol (controlChannel E) = false ->
  dc_Detach E h dc = None ->
  getAddress E msg protocol = inr (network, addr) ->
  net_Dial E (h ++ [EvDetach dc]) network addr = None ->
  json_Marshal_resp E (mkDialChannelResponse "" "" "" "") = inr d ->
  handle E msg dc protocol reads h =
    h ++ [EvDetach dc; EvNetDial network addr; EvRwWrite dc d;
          EvBridge dc; EvCoClose dc; EvNcClose dc] /\
  spawned E msg dc protocol h = [EvCopyBack dc; EvDcClose dc].
Proof.
  intros Hp Hd Ha Hn Hm. split.
  - unfold handle. rewrite Hp. unfold applicationOpen. rewrite Hd, Ha, Hn.
    cbn [dialResponse zeroResponse Err String.eqb negb].
    unfold sendInitMessage, zeroResponse. rewrite Hm.
    cbn [Err String.eqb negb].
    destruct (rw_Write E _ dc d); rewrite <- !app_assoc; reflexivity.
  - unfold spawned. rewrite Hp. unfold applicationSpawned.
    rewrite Hd, Ha, Hn. reflexivity.
Qed.

Lemma dial_success_bridges_witness :
  handle happyEnv emptyMessage 7 "tcp:127.0.0.1:22" [] [] =
    [EvDetach 7; EvNetDial "tcp" "127.0.0.1:22";
     EvRwWrite 7 (encode "code=;err=;net=;op=");
     EvBridge 7; EvCoClose 7; EvNcClose 7] /\
  spawned happyEnv emptyMessage 7 "tcp:127.0.0.1:22" [] =
    [EvCopyBack 7; EvDcClose 7].
Proof.
  exact (dial_success_bridges happyEnv emptyMessage 7
           "tcp:127.0.0.1:22" "tcp" "127.0.0.1:22"
           (encode "code=;err=;net=;op=") [] []
           eq_refl eq_refl eq_refl eq_refl eq_refl).
Defined.

(** X11. When the dial fails with a [net.OpError], whatever its fields, the
    handler never bridges and starts no goroutine: after the dial it only
    answers on the channel, with the response that has code ["dial_error"],
    the error text, and the error's [Net] and [Op], and it closes the
    channel exactly when the write of that response succeeded ([rw_Write]
    gives no error); if the response cannot be marshalled it closes the
    detached stream instead. *)
Theorem op_error_never_bridges
        (E : Env) (msg : BrokerMessage) (dc : DcId)
        (protocol network addr op net a : string) (inner : error)
        (reads : list readResult) (h : history) :
  String.eqb protocol (controlChannel E) = false ->
  dc_Detach E h dc = None ->
  getAddress E msg protocol = inr (network, addr) ->
  net_Dial E (h ++ [EvDetach dc]) network addr
  = Some (net_OpError op net a inner) ->
  handle E msg dc protocol reads h =
    h ++ [EvDetach dc; EvNetDial network addr] ++
    match json_Marshal_resp E
            (mkDialChannelResponse
               "dial_error" (Error (net_OpError op net a inner)) net op)
    with
    | inl _ => [EvRwClose dc]
    | inr d =>
        EvRwWrite dc d ::
        match rw_Write E (h ++ [EvDetach dc; EvNetDial network addr]) dc d with
        | None => [EvDcClose dc]
        | Some _ => []
        end
    end /\
  spawned E msg dc protocol h = [].
Proof.
  intros Hp Hd Ha Hn.
  pose proof (OpError_text op net a inner) as Hne.
  apply String.eqb_neq in Hne.
  split.
  - unfold handle. rewrite Hp. unfold applicationOpen. rewrite Hd, Ha, Hn.
    cbn [dialResponse as_OpError Err]. unfold CodeDialErr.
    rewrite Hne. cbn [negb].
    unfold sendInitMessage. cbn [Err]. rewrite Hne. cbn [negb].
    replace ((h ++ [EvDetach dc]) ++ [EvNetDial network addr])
      with (h ++ [EvDetach dc; EvNetDial network addr])
      by (rewrite <- app_assoc; reflexivity).
    destruct (json_Marshal_resp E _) as [e|d].
    + rewrite <- ?app_assoc. reflexivity.
    + destruct (rw_Write E _ dc d); rewrite <- ?app_assoc; reflexivity.
  - unfold spawned. rewrite Hp. unfold applicationSpawned.
    rewrite Hd, Ha, Hn. cbn [dialResponse as_OpError Err].
    rewrite Hne. reflexivity.
Qed.

Lemma op_error_never_bridges_witness :
  handle refusingEnv emptyMessage 7 "tcp:127.0.0.1:22" [] [] =
    [EvDetach 7; EvNetDial "tcp" "127.0.0.1:22";
     EvRwWrite 7
       (encode ("code=dial_error;"
                ++ "err=dial tcp 127.0.0.1:22: connect: connection refused;"
                ++ "net=tcp;op=dial"));
     EvDcClose 7] /\
  spawned refusingEnv emptyMessage 7 "tcp:127.0.0.1:22" [] = [].
Proof.
  exact (op_error_never_bridges refusingEnv emptyMessage 7
           "tcp:127.0.0.1:22" "tcp" "127.0.0.1:22" "dial" "tcp" "127.0.0.1:22"
           (errors_New "connect: connection refused") [] []
           eq_refl eq_refl eq_refl eq_refl).
Defined.

Lemma Forall_channel_event_on (dc : DcId) (evs : list event) :
  Forall (fun ev => event_target ev = OnChannel dc) evs ->
  Forall (channel_event dc) evs.
Proof. apply Forall_impl. intros ev H. left. exact H. Qed.

Lemma sendInitMessage_events (E : Env) (dc : DcId) (init : DialChannelResponse)
      (h : history) :
  exists evs,
    sendInitMessage E dc init h = h ++ evs /\
    Forall (fun ev => event_target ev = OnChannel dc) evs.
Proof.
  unfold sendInitMessage. destruct (json_Marshal_resp E init) as [e|d].
  - exists [EvRwClose dc]. split; [reflexivity | repeat constructor].
  - destruct (rw_Write E h dc d).
    + exists [EvRwWrite dc d]. split; [reflexivity | repeat constructor].
    + destruct (negb _).
      * exists [EvRwWrite dc d; EvDcClose dc].
        split; [reflexivity | repeat constructor].
      * exists [EvRwWrite dc d]. split; [reflexivity | repeat constructor].
Qed.

(** X12. Whatever the protocol label, the reads and the environment, the
    handler of a data channel acts on that channel and, at most, dials the
    target: it never closes or writes to the signaling stream, never touches
    the peer connection, the broker websocket or another channel. *)
Theorem handler_stays_on_its_channel
        (E : Env) (msg : BrokerMessage) (dc : DcId) (protocol : string)
        (reads : list readResult) (h : history) :
  exists evs,
    handle E msg dc protocol reads h = h ++ evs /\
    Forall (channel_event dc) evs.
Proof.
  unfold handle. destruct (String.eqb protocol (controlChannel E)).
  - unfold controlOpen. destruct (dc_Detach E h dc).
    + exists [EvDetach dc]. split; [reflexivity|].
      repeat constructor.
    + destruct (echoLoop_events dc reads x00 (h ++ [EvDetach dc]))
        as (evs & Ht & Hf & _).
      exists (EvDetach dc :: evs). rewrite Ht, snoc_app.
      split; [reflexivity|]. constructor; [left; reflexivity|].
      eapply Forall_impl; [|exact Hf].
      intros ev [-> | [b ->]]; left; reflexivity.
  - unfold applicationOpen. destruct (dc_Detach E h dc).
    + exists [EvDetach dc]. split; [reflexivity|]. repeat constructor.
    + destruct (getAddress E msg protocol) as [err|[network addr]].
      * destruct (sendInitMessage_events E dc (addressErrorResponse err)
                    (h ++ [EvDetach dc])) as (evs & Ht & Hf).
        exists (EvDetach dc :: evs). rewrite Ht, snoc_app.
        split; [reflexivity|]. constructor; [left; reflexivity|].
        apply Forall_channel_event_on. exact Hf.
      * destruct (sendInitMessage_events E dc
                    (dialResponse (net_Dial E (h ++ [EvDetach dc]) network addr))
                    ((h ++ [EvDetach dc]) ++ [EvNetDial network addr]))
          as (evs & Ht & Hf).
        rewrite Ht. apply Forall_channel_event_on in Hf.
        destruct (negb _).
        -- exists (EvDetach dc :: EvNetDial network addr :: evs).
           rewrite !snoc_app. split; [reflexivity|].
           constructor; [left; reflexivity|].
           constructor; [right; eauto | exact Hf].
        -- exists (EvDetach dc :: EvNetDial network addr
                     :: evs ++ [EvBridge dc; EvCoClose dc; EvNcClose dc]).
           rewrite !snoc_app, <- app_assoc. split; [reflexivity|].
           constructor; [left; reflexivity|].
           constructor; [right; eauto|].
           apply Forall_app. split; [exact Hf|].
           repeat constructor.
Qed.

(** ** The session, in general *)

Lemma live_ws_app (h evs : history) :
  live_ws (h ++ evs) = fold_left live_step evs (live_ws h).
Proof. unfold live_ws. apply fold_left_app. Qed.

Lemma live_ws_peer_closes (h : history) (cs : list PeerId) :
  live_ws (h ++ map EvPeerClose cs) = live_ws h.
Proof.
  rewrite live_ws_app. induction cs as [|c cs IH]; [reflexivity | exact IH].
Qed.

Section GivingUpFacts.
Variable E : Env.

(** [Close] of a listener that holds the only websocket that may be open
    leaves none open. *)
Lemma Close_leaves_none_live (l : listener) (h : history) (w : WsId) :
  ws l = Some w -> stored_ok (Some w) h ->
  live_ws (snd (Close E l h)) = [].
Proof.
  intros Hw [_ Hst]. unfold Close. rewrite Hw. cbn [snd].
  rewrite live_ws_snoc, live_ws_peer_closes. cbn [live_step].
  destruct (filter (fun x => negb (Nat.eqb x w)) (live_ws h)) as [|x rest] eqn:Hf;
    [reflexivity|].
  assert (Hin : In x (filter (fun x => negb (Nat.eqb x w)) (live_ws h)))
    by (rewrite Hf; left; reflexivity).
  apply filter_In in Hin. destruct Hin as [Hin Hneq].
  apply Hst in Hin. inversion Hin; subst.
  rewrite Nat.eqb_refl in Hneq. discriminate.
Qed.

Lemma dial_keeps_ws (s : SupState) :
  (exists w, ws (sup_l s) = Some w) ->
  exists w, ws (sup_l (snd (dial E s))) = Some w.
Proof.
  intros [w Hw]. destruct (dial_events E s) as (opened & _ & Hws).
  rewrite Hws. destruct opened; eauto.
Qed.

Lemma redial_keeps_ws (s : SupState) :
  (exists w, ws (sup_l s) = Some w) ->
  exists w, ws (sup_l (snd (redial E s))) = Some w.
Proof.
  intros H. pose proof (dial_keeps_ws s H) as Hd. unfold redial.
  destruct (dial E s) as [[e|c] s1]; exact Hd.
Qed.

Lemma storeAndClose_leaves_none_live (err : error) (s : SupState) :
  session_ok s -> (exists w, ws (sup_l s) = Some w) ->
  live_ws (sup_trace (snd (storeAndClose E err s))) = [].
Proof.
  intros Hok [w Hw]. unfold storeAndClose. cbn [snd sup_trace].
  apply (Close_leaves_none_live _ _ w); [exact Hw|].
  assert (H : stored_ok (ws (sup_l s)) (sup_trace s)) by exact Hok.
  rewrite Hw in H. exact H.
Qed.

Lemma receive_leaves_none_live (k : SupState -> supStatus * SupState)
      (s : SupState) :
  (forall s1, session_ok s1 -> (exists w, ws (sup_l s1) = Some w) ->
              fst (k s1) = Finished -> live_ws (sup_trace (snd (k s1))) = []) ->
  session_ok s -> (exists w, ws (sup_l s) = Some w) ->
  fst (receive E k s) = Finished ->
  live_ws (sup_trace (snd (receive E k s))) = [].
Proof.
  intros Hk Hok Hws. unfold receive.
  destruct (ch s) as [c|]; [|discriminate].
  destruct (session_Accept_error E (sup_trace s) c) as [err|]; [|discriminate].
  destruct (errors_Is err io_EOF || errors_Is err yamux_ErrKeepAliveTimeout).
  - apply Hk; [|exact Hws]. apply quiet_event_ok; [discriminate | exact Hok].
  - intros _. apply storeAndClose_leaves_none_live; assumption.
Qed.

Lemma retry_leaves_none_live (sels : list selectEvent) (s : SupState) :
  session_ok s -> (exists w, ws (sup_l s) = Some w) ->
  fst (retry E sels s) = Finished ->
  live_ws (sup_trace (snd (retry E sels s))) = [].
Proof.
  revert s. induction sels as [|sel rest IH]; intros s Hok Hws; cbn [retry].
  - discriminate.
  - assert (Hstep : session_ok
                      (snd (match sel with
                            | TickerC => redial E s
                            | CtxDone deadline => (Some (ctx_Err deadline), s)
                            end)) /\
                    exists w, ws (sup_l
                      (snd (match sel with
                            | TickerC => redial E s
                            | CtxDone deadline => (Some (ctx_Err deadline), s)
                            end))) = Some w).
    { destruct sel; [|split; assumption].
      split; [apply redial_ok; exact Hok | apply redial_keeps_ws; exact Hws]. }
    destruct (match sel with
              | TickerC => redial E s
              | CtxDone deadline => (Some (ctx_Err deadline), s)
              end) as [err s1].
    cbn [snd] in Hstep. destruct Hstep as [Hok1 Hws1].
    destruct (retryDone err); [|apply IH; assumption].
    assert (Hstop : session_ok (sup_set_trace (sup_trace s1 ++ [EvTickerStop]) s1))
      by (apply quiet_event_ok; [discriminate | exact Hok1]).
    destruct err as [e|].
    + intros _. apply storeAndClose_leaves_none_live; assumption.
    + apply receive_leaves_none_live; [exact IH | exact Hstop | exact Hws1].
Qed.

Lemma Listen_returned (url authToken : string) (fresh : WsId)
      (s : SupState) :
  Listen E url authToken fresh = (inr tt, s) ->
  session_ok s /\ ws (sup_l s) = Some fresh.
Proof.
  unfold Listen.
  set (s0 := mkSupState (mkListener url authToken None None [])
                        None fresh []).
  assert (H0 : session_ok s0).
  { split; [apply one_live_ws_nil | intros w []]. }
  pose proof (dial_ok E s0 H0) as Hd.
  assert (Hws : forall c s1, dial E s0 = (inr c, s1) -> ws (sup_l s1) = Some fresh).
  { unfold dial. cbn [sup_l ws s0 sup_trace broker nextWs].
    destruct (websocket_Dial E [] url) as [|resp err].
    - destruct (yamux_Server E _ fresh); intros c s1 Heq;
        inversion Heq; subst; reflexivity.
    - destruct resp; intros c s1 Heq; inversion Heq. }
  destruct (dial E s0) as [[e|c] s1] eqn:Hdial; intros Heq; inversion Heq; subst.
  cbn [snd] in Hd. split; [exact Hd | apply (Hws c s1 eq_refl)].
Qed.

End GivingUpFacts.

(** X13. Once [Listen] has returned the listener, a watcher that gives up
    leaves no broker websocket open: whatever made it stop, it closed the
    one the listener held, and no other was open. *)
Theorem finished_watcher_leaves_no_websocket
        (E : Env) (broker turnProxyAuthToken : string) (fresh : WsId)
        (sels : list selectEvent) (s : SupState) :
  Listen E broker turnProxyAuthToken fresh = (inr tt, s) ->
  fst (watcher E sels s) = Finished ->
  live_ws (sup_trace (snd (watcher E sels s))) = [].
Proof.
  intros HL Hfin. destruct (Listen_returned E _ _ _ _ HL) as [Hok Hws].
  unfold watcher in *.
  apply receive_leaves_none_live; eauto.
  intros s1. apply retry_leaves_none_live.
Qed.

Lemma finished_watcher_leaves_no_websocket_witness :
  Listen flakyBrokerEnv "ws://broker/listen" "token" 0 = (inr tt, flakyListening) /\
  fst (watcher flakyBrokerEnv [TickerC; CtxDone false] flakyListening) = Finished /\
  live_ws (sup_trace
             (snd (watcher flakyBrokerEnv [TickerC; CtxDone false] flakyListening)))
  = [].
Proof.
  split; [reflexivity|]. split; [reflexivity|].
  exact (finished_watcher_leaves_no_websocket flakyBrokerEnv
           "ws://broker/listen" "token" 0 [TickerC; CtxDone false]
           flakyListening eq_refl eq_refl).
Defined.

(** X14. What [Listen] returns.  On success the listener holds the new
    websocket, the only one open, and has neither peers nor a terminal
    error.  If the websocket dial fails nothing is open, and the error is
    the SDK's HTTP error when the dial produced a response and the dial's own
    error otherwise.  If the dial succeeds and the multiplexer cannot be
    created, the error wraps the cause as ["create multiplex: ..."], no
    listener is returned, and the websocket just opened is still open. *)
Theorem Listen_outcomes
        (E : Env) (url authToken : string) (fresh : WsId) :
  match Listen E url authToken fresh with
  | (inr _, s) =>
      sup_l s = mkListener url authToken None (Some fresh) [] /\
      ch s = Some fresh /\
      live_ws (sup_trace s) = [fresh]
  | (inl err, s) =>
      match websocket_Dial E [] url with
      | WsDialErr (Some resp) _ =>
          err = coder_NewHTTPError E resp /\ live_ws (sup_trace s) = []
      | WsDialErr None e =>
          err = e /\ live_ws (sup_trace s) = []
      | WsDialOk =>
          exists e,
            yamux_Server E [EvWsDial url; EvWsOpened fresh] fresh = Some e /\
            err = Errorf_w "create multiplex: " e /\
            live_ws (sup_trace s) = [fresh]
      end
  end.
Proof.
  unfold Listen, dial. cbn [sup_l ws sup_trace broker nextWs List.app].
  destruct (websocket_Dial E [] url) as [|[resp|] err].
  - destruct (yamux_Server E [EvWsDial url; EvWsOpened fresh] fresh) as [e|].
    + exists e. repeat split.
    + repeat split.
  - split; reflexivity.
  - split; reflexivity.
Qed.

Section TerminalErrorFacts.
Variable E : Env.

Lemma sentinel_unique (err : error) (a b : sentinel) :
  errors_Is err a = true -> errors_Is err b = true -> a = b.
Proof.
  induction err as [s|text|prefix e IH|op net addr e IH|text]; cbn; intros Ha Hb;
    try discriminate; try (apply IH; assumption).
  destruct s, a, b; try reflexivity; discriminate.
Qed.

Lemma context_ended_not_retryable (err : error) :
  context_ended err = true -> retryable err = false.
Proof.
  unfold context_ended, retryable. intros H.
  apply orb_true_iff in H. apply orb_false_iff.
  split.
  - destruct (errors_Is err io_EOF) eqn:He; [|reflexivity].
    destruct H as [H|H]; pose proof (sentinel_unique err _ _ He H); discriminate.
  - destruct (errors_Is err yamux_ErrKeepAliveTimeout) eqn:He; [|reflexivity].
    destruct H as [H|H]; pose proof (sentinel_unique err _ _ He H); discriminate.
Qed.

Lemma receive_terminal (k : SupState -> supStatus * SupState) (s : SupState) :
  (forall s1,
      match k s1 with
      | (Finished, s') =>
          exists err, acceptError (sup_l s') = Some err /\ retryable err = false
      | (_, s') => acceptError (sup_l s') = acceptError (sup_l s1)
      end) ->
  match receive E k s with
  | (Finished, s') =>
      exists err, acceptError (sup_l s') = Some err /\ retryable err = false
  | (_, s') => acceptError (sup_l s') = acceptError (sup_l s)
  end.
Proof.
  intros Hk. unfold receive.
  destruct (ch s) as [c|]; [|reflexivity].
  destruct (session_Accept_error E (sup_trace s) c) as [err|]; [|reflexivity].
  destruct (errors_Is err io_EOF || errors_Is err yamux_ErrKeepAliveTimeout) eqn:Hr.
  - apply (Hk (sup_set_trace (sup_trace s ++ [EvNewTicker connectionRetryInterval]) s)).
  - cbn. exists err. split; [reflexivity | exact Hr].
Qed.

Lemma retry_terminal (sels : list selectEvent) (s : SupState) :
  match retry E sels s with
  | (Finished, s') =>
      exists err, acceptError (sup_l s') = Some err /\ retryable err = false
  | (_, s') => acceptError (sup_l s') = acceptError (sup_l s)
  end.
Proof.
  revert s. induction sels as [|sel rest IH]; intros s; cbn [retry].
  - reflexivity.
  - assert (Hstep : acceptError
                      (sup_l (snd (match sel with
                                   | TickerC => redial E s
                                   | CtxDone deadline => (Some (ctx_Err deadline), s)
                                   end))) = acceptError (sup_l s)).
    { destruct sel; [apply redial_counts | reflexivity]. }
    destruct (match sel with
              | TickerC => redial E s
              | CtxDone deadline => (Some (ctx_Err deadline), s)
              end) as [err s1].
    cbn [snd] in Hstep. rewrite <- Hstep.
    destruct (retryDone err) eqn:Hdone; [|apply IH].
    destruct err as [e|].
    + cbn. exists e. split; [reflexivity|].
      apply context_ended_not_retryable. exact Hdone.
    + apply (receive_terminal (retry E rest)
               (sup_set_trace (sup_trace s1 ++ [EvTickerStop]) s1)).
      exact IH.
Qed.

Lemma count_dials_quiet (h evs : history) :
  existsb is_WsDial evs = false -> count_dials (h ++ evs) = count_dials h.
Proof.
  intros H. rewrite count_dials_app. unfold count_dials.
  induction evs as [|ev evs IH]; [cbn; lia|].
  cbn in H. apply orb_false_iff in H. destruct H as [Hev Hrest].
  cbn [filter]. rewrite Hev. apply IH. exact Hrest.
Qed.

Lemma storeAndClose_no_dial (err : error) (s : SupState) :
  count_dials (sup_trace (snd (storeAndClose E err s))) = count_dials (sup_trace s).
Proof.
  unfold storeAndClose, Close. cbn [snd sup_trace sup_l l_set_acceptError ws connClosers].
  assert (Hp : existsb is_WsDial (map EvPeerClose (connClosers (sup_l s))) = false).
  { induction (connClosers (sup_l s)) as [|c cs IH]; [reflexivity | exact IH]. }
  destruct (ws (sup_l s)) as [w|]; cbn [snd].
  - rewrite <- app_assoc. apply count_dials_quiet.
    rewrite existsb_app, Hp. reflexivity.
  - apply count_dials_quiet. exact Hp.
Qed.

Lemma receive_dials (k : SupState -> supStatus * SupState) (n : nat) (s : SupState) :
  (forall s1, count_dials (sup_trace (snd (k s1))) <= count_dials (sup_trace s1) + n) ->
  count_dials (sup_trace (snd (receive E k s))) <= count_dials (sup_trace s) + n.
Proof.
  intros Hk. unfold receive.
  destruct (ch s) as [c|]; [|cbn; lia].
  destruct (session_Accept_error E (sup_trace s) c) as [err|]; [|cbn; lia].
  destruct (errors_Is err io_EOF || errors_Is err yamux_ErrKeepAliveTimeout).
  - etransitivity; [apply Hk|]. cbn [sup_trace sup_set_trace].
    rewrite count_dials_quiet by reflexivity. lia.
  - rewrite storeAndClose_no_dial. lia.
Qed.

Lemma retry_dials (sels : list selectEvent) (s : SupState) :
  count_dials (sup_trace (snd (retry E sels s))) <=
  count_dials (sup_trace s) + List.length (filter is_tick sels).
Proof.
  revert s. induction sels as [|sel rest IH]; intros s; cbn [retry].
  - cbn. lia.
  - assert (Hstep : count_dials
                      (sup_trace (snd (match sel with
                                       | TickerC => redial E s
                                       | CtxDone deadline => (Some (ctx_Err deadline), s)
                                       end)))
                    + List.length (filter is_tick rest)
                    <= count_dials (sup_trace s)
                       + List.length (filter is_tick (sel :: rest))).
    { destruct sel; cbn [filter is_tick List.length snd].
      - destruct (redial_counts E s) as [Hc _]. rewrite Hc. lia.
      - lia. }
    destruct (match sel with
              | TickerC => redial E s
              | CtxDone deadline => (Some (ctx_Err deadline), s)
              end) as [err s1].
    cbn [snd] in Hstep.
    destruct (retryDone err).
    + destruct err as [e|].
      * rewrite storeAndClose_no_dial. cbn [sup_trace sup_set_trace].
        rewrite count_dials_quiet by reflexivity. lia.
      * etransitivity; [apply (receive_dials _ (List.length (filter is_tick rest)));
                        exact IH|].
        cbn [sup_trace sup_set_trace].
        rewrite count_dials_quiet by reflexivity. lia.
    + etransitivity; [apply IH | lia].
Qed.

End TerminalErrorFacts.

(** X15. The watcher gives up only on an error it does not retry: when it
    has finished, the terminal field holds an error that is neither [io.EOF]
    nor the keepalive timeout (the end of the context, or the accept error
    that was not one of the two); as long as it has not finished, the
    terminal field is untouched. *)
Theorem watcher_gives_up_only_on_terminal_error
        (E : Env) (sels : list selectEvent) (s : SupState) :
  match watcher E sels s with
  | (Finished, s') =>
      exists err, acceptError (sup_l s') = Some err /\ retryable err = false
  | (_, s') => acceptError (sup_l s') = acceptError (sup_l s)
  end.
Proof.
  unfold watcher. apply receive_terminal. intros s1. apply retry_terminal.
Qed.

(** X16. The watcher dials the broker only on a tick of its ticker: in any
    run, the number of calls of [websocket.Dial] it made is at most the
    number of ticks it was given. *)
Theorem watcher_dials_only_on_ticks
        (E : Env) (sels : list selectEvent) (s : SupState) :
  count_dials (sup_trace (snd (watcher E sels s))) <=
  count_dials (sup_trace s) + List.length (filter is_tick sels).
Proof.
  unfold watcher. apply receive_dials. intros s1. apply retry_dials.
Qed.

(** ** The end of the stream and rejected candidates *)

(** How far the loop got is kept when more input follows: a run that is
    blocked in [decoder.Decode] after [pre] goes on with what comes next. *)
Lemma negotiate_loop_resumes
      (E : Env) (pre post : list (error + BrokerMessage)) (s s1 : NegState) :
  negotiate_loop E pre s = (Decoding, s1) ->
  negotiate_loop E (pre ++ post) s = negotiate_loop E post s1.
Proof.
  revert s. induction pre as [|[err|msg] pre IH]; intros s H;
    cbn [negotiate_loop app] in *.
  - now inversion H.
  - discriminate.
  - destruct (onFrame E msg s) as [[a| |] s2]; try discriminate; auto.
Qed.

(** X17. However many frames [negotiate] has handled, when the next
    [decoder.Decode] fails, at the end of the stream or on a malformed
    frame, it writes the frame whose only set field is [Error], holding the
    text of the decode error itself, closes the stream and returns; the
    peer it holds at that time is closed exactly when it is not connected,
    so a connected peer outlives its signaling stream, and the closer list
    is left as it was.  What follows on the stream is never read. *)
Theorem decode_error_ends_negotiation
        (E : Env) (frames rest : list (error + BrokerMessage)) (err : error)
        (s s1 : NegState) :
  negotiate_loop E frames s = (Decoding, s1) ->
  let d := marshal_or_nil
             (json_Marshal_msg E
                (mkBrokerMessage None None "" (Error err) None "")) in
  exists s' closes,
    negotiate_loop E (frames ++ inl err :: rest) s = (Returned, s') /\
    trace s' = trace s1 ++ [EvConnWrite d; EvConnClose] ++ closes /\
    (closes = [] \/ exists p, closes = [EvPeerClose p]) /\
    (forall p,
        In (EvPeerClose p) closes <->
        rtc s1 = Some p /\
        rtc_ConnectionState E (trace s1 ++ [EvConnWrite d; EvConnClose]) p
        <> PeerConnectionStateConnected) /\
    connClosers (lst s') = connClosers (lst s1).
Proof.
  intros Hpre d. rewrite (negotiate_loop_resumes E frames _ s s1 Hpre).
  cbn [negotiate_loop].
  destruct (closeError_return E err s1) as (s' & Hret & Ht & Hl).
  destruct (errorReport_shape E (trace s1) (rtc s1) err)
    as (closes & Hshape & Hone & Hiff).
  exists s', closes. rewrite Hret. cbn [snd]. rewrite Ht, Hshape, Hl. auto.
Qed.

Lemma decode_error_ends_negotiation_witness :
  (exists s',
      negotiate happyEnv liveListener 0
                [inr plainOffer; inl (Sentinel io_EOF); inr plainOffer]
      = (Returned, s') /\
      trace s' =
        [EvDialICE stunServer;
         EvNewPeerConnection [stunServer; sentinelServer] None;
         EvOnConnectionStateChange 0; EvProxyICECandidates 0;
         EvOnDataChannel 0 plainOffer; EvSetRemoteDescription 0 testOffer;
         EvCreateAnswer 0; EvSetLocalDescription 0 testAnswer;
         EvFlushCandidates 0;
         EvConnWrite (encode "error=;answer=v=0 a;candidate=");
         EvConnWrite (encode "error=EOF;answer=;candidate=");
         EvConnClose; EvPeerClose 0]) /\
  (exists s',
      negotiate connectedEnv liveListener 0
                [inr plainOffer; inl (errors_New "unexpected end of JSON input")]
      = (Returned, s') /\
      trace s' =
        [EvDialICE stunServer;
         EvNewPeerConnection [stunServer; sentinelServer] None;
         EvOnConnectionStateChange 0; EvProxyICECandidates 0;
         EvOnDataChannel 0 plainOffer; EvSetRemoteDescription 0 testOffer;
         EvCreateAnswer 0; EvSetLocalDescription 0 testAnswer;
         EvFlushCandidates 0;
         EvConnWrite (encode "error=;answer=v=0 a;candidate=");
         EvConnWrite
           (encode "error=unexpected end of JSON input;answer=;candidate=");
         EvConnClose]).
Proof.
  split.
  - assert (Hpre : negotiate_loop happyEnv [inr plainOffer]
                     (initNeg liveListener 0) = (Decoding, negotiated))
      by (vm_compute; reflexivity).
    destruct (decode_error_ends_negotiation happyEnv
                [inr plainOffer] [inr plainOffer] (Sentinel io_EOF)
                (initNeg liveListener 0) negotiated Hpre)
      as (s' & closes & Hrun & Ht & [Hnone | [p Hone]] & Hiff & _).
    + exfalso. subst closes.
      apply (proj2 (Hiff 0)).
      split; [vm_compute; reflexivity | vm_compute; discriminate].
    + exists s'. split; [exact Hrun|].
      assert (Hin : In (EvPeerClose p) closes)
        by (rewrite Hone; left; reflexivity).
      apply Hiff in Hin. destruct Hin as [Hp _].
      vm_compute in Hp. injection Hp as Hp. subst p.
      rewrite Ht, Hone. vm_compute. reflexivity.
  - assert (Hpre : negotiate_loop connectedEnv [inr plainOffer]
                     (initNeg liveListener 0)
                   = (Decoding,
                      snd (negotiate connectedEnv liveListener 0
                                     [inr plainOffer])))
      by (vm_compute; reflexivity).
    destruct (decode_error_ends_negotiation connectedEnv
                [inr plainOffer] [] (errors_New "unexpected end of JSON input")
                (initNeg liveListener 0) _ Hpre)
      as (s' & closes & Hrun & Ht & [Hnone | [p Hone]] & Hiff & _).
    + exists s'. split; [exact Hrun|]. rewrite Ht, Hnone.
      vm_compute. reflexivity.
    + exfalso.
      assert (Hin : In (EvPeerClose p) closes)
        by (rewrite Hone; left; reflexivity).
      apply Hiff in Hin. destruct Hin as [_ Hn]. apply Hn.
      vm_compute. reflexivity.
Defined.

(** X18. A candidate that arrives while a peer exists and that the peer
    rejects ends the negotiation: after the failed [AddICECandidate] the
    listener reports ["accept ice candidate: <cause>"], closes the stream
    and returns, and closes the peer unless it is connected; an offer in the
    same frame is not processed. *)
Theorem rejected_candidate_ends_negotiation
        (E : Env) (msg : BrokerMessage) (p : PeerId) (e : error) (s : NegState) :
  rtc s = Some p ->
  Candidate msg <> "" ->
  rtc_AddICECandidate E (trace s) p (mkICECandidateInit (Candidate msg)) = Some e ->
  let d := marshal_or_nil
             (json_Marshal_msg E
                (errorMessage ("accept ice candidate: " ++ Error e))) in
  let h := trace s ++ [EvAddICECandidate p (mkICECandidateInit (Candidate msg))] in
  exists s' closes,
    onFrame E msg s = (Return, s') /\
    trace s' = h ++ [EvConnWrite d; EvConnClose] ++ closes /\
    (closes = [] \/ closes = [EvPeerClose p]) /\
    (closes = [] <->
     rtc_ConnectionState E (h ++ [EvConnWrite d; EvConnClose]) p
     = PeerConnectionStateConnected).
Proof.
  intros Hr Hc He d h.
  destruct (closeError_return E (Errorf_w "accept ice candidate: " e)
              (set_trace h s)) as (s' & Hret & Ht & _).
  cbn [trace set_trace rtc] in Ht. rewrite Hr in Ht.
  unfold errorReport in Ht. cbn [Error] in Ht. fold d in Ht.
  exists s'.
  exists (if pcs_eqb (rtc_ConnectionState E (h ++ [EvConnWrite d; EvConnClose]) p)
                     PeerConnectionStateConnected
          then [] else [EvPeerClose p]).
  split.
  - unfold onFrame. apply bind_Return. unfold onCandidate.
    apply String.eqb_neq in Hc. rewrite Hc. cbn [negb].
    unfold bind at 1. unfold get_rtc at 1. rewrite Hr.
    unfold bind at 1. unfold call at 1. rewrite He. exact Hret.
  - split; [exact Ht|].
    destruct (pcs_eqb _ PeerConnectionStateConnected) eqn:Hs.
    + apply pcs_eqb_eq in Hs. split; [auto | tauto].
    + apply pcs_eqb_neq in Hs. split; [auto|].
      split; [discriminate | contradiction].
Qed.

Lemma rejected_candidate_ends_negotiation_witness :
  rtc renegotiating = Some 0 /\
  exists s',
    onFrame pickyPeerEnv (candidateFrame "candidate:1") renegotiating
    = (Return, s') /\
    trace s' =
      [EvAddICECandidate 0 (mkICECandidateInit "candidate:1");
       EvConnWrite (encode ("error=accept ice candidate: malformed candidate;"
                            ++ "answer=;candidate="));
       EvConnClose; EvPeerClose 0].
Proof.
  split; [reflexivity|].
  assert (Hc : Candidate (candidateFrame "candidate:1") <> "")
    by (cbn; discriminate).
  destruct (rejected_candidate_ends_negotiation pickyPeerEnv
              (candidateFrame "candidate:1") 0
              (errors_New "malformed candidate") renegotiating
              eq_refl Hc eq_refl)
    as (s' & closes & Hrun & Ht & [Hnone | Hone] & Hiff).
  - exfalso. apply Hiff in Hnone. cbn in Hnone. discriminate.
  - exists s'. split; [exact Hrun|]. rewrite Ht, Hone. reflexivity.
Defined.
